(** * cloudflare-sync-r2: a shallow embedding of [sync-r2-to-local.ts]

    The script copies the objects of a remote R2 bucket into the local
    Miniflare store.  This development embeds the script's functions and
    proves the properties its specification states about them.

    Conventions of the embedding:
    - a JS string is a [string]; when it is hashed it stands for its UTF-8
      bytes;
    - a [Buffer] is a [list Z] of bytes (each in [0, 256));
    - a 32-bit word is a [Z] with the wrap-around written out;
    - Node's [path] module in its POSIX flavour;
    - a console line is kept with its colour, which stands for the emoji
      prefix of [logSuccess] and the like; emoji inside message texts are
      left out;
    - whatever the script does not decide (the environment, the remote
      store, child processes, the database file) is given by an [Env] and a
      [World], and a run is a function of the two. *)

From Stdlib Require Import ZArith Ascii String List Lia.
From stdpp Require Import base list strings gmap pretty.

Local Open Scope string_scope.
Local Open Scope list_scope.

(** ** Node's [crypto]: SHA-256 (FIPS 180-4) and HMAC (RFC 2104) *)

Module SHA256.
Local Open Scope Z_scope.

Definition add32 (x y : Z) : Z := (x + y) mod 2 ^ 32.
Definition not32 (x : Z) : Z := Z.lxor x (2 ^ 32 - 1).
Definition rotr (n x : Z) : Z :=
  Z.lor (Z.shiftr x n) (Z.shiftl x (32 - n) mod 2 ^ 32).

Definition Ch (x y z : Z) : Z := Z.lxor (Z.land x y) (Z.land (not32 x) z).
Definition Maj (x y z : Z) : Z :=
  Z.lxor (Z.lxor (Z.land x y) (Z.land x z)) (Z.land y z).
Definition bsig0 (x : Z) : Z := Z.lxor (Z.lxor (rotr 2 x) (rotr 13 x)) (rotr 22 x).
Definition bsig1 (x : Z) : Z := Z.lxor (Z.lxor (rotr 6 x) (rotr 11 x)) (rotr 25 x).
Definition ssig0 (x : Z) : Z := Z.lxor (Z.lxor (rotr 7 x) (rotr 18 x)) (Z.shiftr x 3).
Definition ssig1 (x : Z) : Z := Z.lxor (Z.lxor (rotr 17 x) (rotr 19 x)) (Z.shiftr x 10).

(** The round constants are the first 32 bits of the fractional parts of the
    cube roots of the first 64 primes, the initial hash value those of the
    square roots of the first 8 primes.  They are computed here rather than
    tabulated. *)
Definition primes64 : list Z :=
  [2; 3; 5; 7; 11; 13; 17; 19; 23; 29; 31; 37; 41; 43; 47; 53; 59; 61; 67;
   71; 73; 79; 83; 89; 97; 101; 103; 107; 109; 113; 127; 131; 137; 139; 149;
   151; 157; 163; 167; 173; 179; 181; 191; 193; 197; 199; 211; 223; 227; 229;
   233; 239; 241; 251; 257; 263; 269; 271; 277; 281; 283; 293; 307; 311].

(** Largest [r] below [2 ^ b] (above the bits already fixed in [r]) with
    [pw r <= n], found bit by bit. *)
Fixpoint iroot (pw : Z -> Z) (n : Z) (b : nat) (r : Z) : Z :=
  match b with
  | O => r
  | S b' =>
      let c := r + 2 ^ Z.of_nat b' in
      iroot pw n b' (if pw c <=? n then c else r)
  end.

Definition frac_sqrt (p : Z) : Z := iroot (fun x => x * x) (p * 2 ^ 64) 40 0 mod 2 ^ 32.
Definition frac_cbrt (p : Z) : Z := iroot (fun x => x * x * x) (p * 2 ^ 96) 40 0 mod 2 ^ 32.

Definition K : list Z := Eval vm_compute in map frac_cbrt primes64.

Record hstate : Type := HState {
  ha : Z; hb : Z; hc : Z; hd : Z; he : Z; hf : Z; hg : Z; hh : Z
}.

Definition H0 : hstate :=
  Eval vm_compute in
    HState (frac_sqrt 2) (frac_sqrt 3) (frac_sqrt 5) (frac_sqrt 7)
           (frac_sqrt 11) (frac_sqrt 13) (frac_sqrt 17) (frac_sqrt 19).

(** [n] bytes of [x], most significant first. *)
Definition be_bytes (n : nat) (x : Z) : list Z :=
  map (fun i => (x / 256 ^ Z.of_nat (n - 1 - i)) mod 256) (seq 0 n).

Definition pad (msg : list Z) : list Z :=
  let l := Z.of_nat (length msg) in
  msg ++ [128] ++ repeat 0 (Z.to_nat ((55 - l) mod 64)) ++ be_bytes 8 (8 * l).

Definition byte_at (bs : list Z) (i : nat) : Z := nth i bs 0.

Definition word_at (bs : list Z) (i : nat) : Z :=
  byte_at bs (4 * i) * 2 ^ 24 + byte_at bs (4 * i + 1) * 2 ^ 16
  + byte_at bs (4 * i + 2) * 2 ^ 8 + byte_at bs (4 * i + 3).

Fixpoint extend (n : nat) (W : list Z) : list Z :=
  match n with
  | O => W
  | S n' =>
      let t := length W in
      let w := add32 (add32 (ssig1 (nth (t - 2) W 0)) (nth (t - 7) W 0))
                     (add32 (ssig0 (nth (t - 15) W 0)) (nth (t - 16) W 0)) in
      extend n' (W ++ [w])
  end.

Definition schedule (blk : list Z) : list Z :=
  extend 48 (map (word_at blk) (seq 0 16)).

Definition round (s : hstate) (kw : Z * Z) : hstate :=
  let t1 := add32 (add32 (add32 (hh s) (bsig1 (he s))) (Ch (he s) (hf s) (hg s)))
                  (add32 (fst kw) (snd kw)) in
  let t2 := add32 (bsig0 (ha s)) (Maj (ha s) (hb s) (hc s)) in
  HState (add32 t1 t2) (ha s) (hb s) (hc s) (add32 (hd s) t1) (he s) (hf s) (hg s).

Definition compress (h : hstate) (blk : list Z) : hstate :=
  let s := fold_left round (combine K (schedule blk)) h in
  HState (add32 (ha h) (ha s)) (add32 (hb h) (hb s)) (add32 (hc h) (hc s))
         (add32 (hd h) (hd s)) (add32 (he h) (he s)) (add32 (hf h) (hf s))
         (add32 (hg h) (hg s)) (add32 (hh h) (hh s)).

Definition digest_bytes (h : hstate) : list Z :=
  be_bytes 4 (ha h) ++ be_bytes 4 (hb h) ++ be_bytes 4 (hc h) ++ be_bytes 4 (hd h)
  ++ be_bytes 4 (he h) ++ be_bytes 4 (hf h) ++ be_bytes 4 (hg h) ++ be_bytes 4 (hh h).

Definition sha256 (msg : list Z) : list Z :=
  let p := pad msg in
  let blocks := map (fun i => firstn 64 (skipn (64 * i) p)) (seq 0 (length p / 64)) in
  digest_bytes (fold_left compress blocks H0).

Definition block_size : nat := 64.

Definition hmac (key msg : list Z) : list Z :=
  let k0 := if (block_size <? length key)%nat then sha256 key else key in
  let k := k0 ++ repeat 0 (block_size - length k0) in
  let ipad := map (Z.lxor 54) k in
  let opad := map (Z.lxor 92) k in
  sha256 (opad ++ sha256 (ipad ++ msg)).

End SHA256.

(** ** Buffers and strings *)

Definition Buffer := list Z.

(** UTF-8 bytes of a string, as [Hash.update] and [Hmac.update] take them. *)
Definition utf8 (s : string) : Buffer :=
  map (fun c => Z.of_N (N_of_ascii c)) (list_ascii_of_string s).

Definition hex_digit (n : Z) : ascii :=
  nth (Z.to_nat n) (list_ascii_of_string "0123456789abcdef") "0"%char.

(** [buf.toString('hex')] *)
Definition toString_hex (b : Buffer) : string :=
  string_of_list_ascii
    (flat_map (fun x => [hex_digit ((x / 16) mod 16); hex_digit (x mod 16)]%Z) b).

(** [buf.subarray(start, end)] for [0 <= start <= end]; both ends are clamped
    to the buffer. *)
Definition subarray (start end_ : nat) (b : Buffer) : Buffer :=
  firstn (end_ - start) (skipn start b).

(** [Buffer.concat(list)] *)
Definition Buffer_concat (bs : list Buffer) : Buffer := concat bs.

(** The [Hash] and [Hmac] objects of Node's [crypto]: [update] appends to the
    message, [digest] finishes. *)
Record Hash : Type := { hash_data : Buffer }.
Definition createHash_sha256 : Hash := {| hash_data := [] |}.
Definition Hash_update (h : Hash) (d : Buffer) : Hash :=
  {| hash_data := hash_data h ++ d |}.
Definition Hash_digest (h : Hash) : Buffer := SHA256.sha256 (hash_data h).

Record Hmac : Type := { hmac_key : Buffer; hmac_data : Buffer }.
Definition createHmac_sha256 (key : Buffer) : Hmac :=
  {| hmac_key := key; hmac_data := [] |}.
Definition Hmac_update (h : Hmac) (d : Buffer) : Hmac :=
  {| hmac_key := hmac_key h; hmac_data := hmac_data h ++ d |}.
Definition Hmac_digest (h : Hmac) : Buffer := SHA256.hmac (hmac_key h) (hmac_data h).

(** ** Identifier derivation *)

Definition MINIFLARE_KEY : string := "miniflare-R2BucketObject".

Definition durableObjectNamespaceIdFromName (uniqueKey name : string) : string :=
  let key := Hash_digest (Hash_update createHash_sha256 (utf8 uniqueKey)) in
  let nameHmac := subarray 0 16 (Hmac_digest (Hmac_update (createHmac_sha256 key) (utf8 name))) in
  let hmac := subarray 0 16 (Hmac_digest (Hmac_update (createHmac_sha256 key) nameHmac)) in
  toString_hex (Buffer_concat [nameHmac; hmac]).


(** The derivation as the specification words it. *)
Definition deriveId_spec (namespaceConstant B : string) : string :=
  let key := SHA256.sha256 (utf8 namespaceConstant) in
  let nameDigest := firstn 16 (SHA256.hmac key (utf8 B)) in
  let hmac := firstn 16 (SHA256.hmac key nameDigest) in
  toString_hex (nameDigest ++ hmac).

Definition is_hex_char (c : ascii) : bool :=
  existsb (Ascii.eqb c) (list_ascii_of_string "0123456789abcdef").

(** ** JavaScript helpers *)

(** [arr.includes(x)] on an array of strings *)
Definition includes (l : list string) (x : string) : bool :=
  existsb (String.eqb x) l.

(** [s.startsWith(p)] *)
Definition startsWith (s p : string) : bool := String.prefix p s.

(** [s.split(c)] for a one-character separator *)
Fixpoint split_char (sep : ascii) (s : string) : list string :=
  match s with
  | EmptyString => [EmptyString]
  | String c rest =>
      let r := split_char sep rest in
      if Ascii.eqb c sep then EmptyString :: r
      else match r with
           | hd :: tl => String c hd :: tl
           | [] => [String c EmptyString]
           end
  end.

(** Truthiness of a [string | undefined] value: [undefined] and the empty
    string are falsy. *)
Definition truthy (v : option string) : bool :=
  match v with
  | Some s => negb (String.eqb s EmptyString)
  | None => false
  end.

(** ** Node's [path] (POSIX) *)

Module path.

Definition sep : ascii := "/"%char.

Definition ends_with_sep (p : string) : bool :=
  match rev (list_ascii_of_string p) with
  | c :: _ => Ascii.eqb c sep
  | [] => false
  end.

Definition isAbsolute (p : string) : bool :=
  match p with
  | String c _ => Ascii.eqb c sep
  | EmptyString => false
  end.

(** [normalizeString]: resolves ["."] and [".."] segments; [stack] holds the
    segments kept so far, innermost first. *)
Fixpoint normalize_segments (allowAboveRoot : bool) (segs stack : list string)
  : list string :=
  match segs with
  | [] => rev stack
  | seg :: rest =>
      if String.eqb seg EmptyString || String.eqb seg "." then
        normalize_segments allowAboveRoot rest stack
      else if String.eqb seg ".." then
        match stack with
        | top :: below =>
            if String.eqb top ".." then
              normalize_segments allowAboveRoot rest
                (if allowAboveRoot then ".." :: stack else stack)
            else normalize_segments allowAboveRoot rest below
        | [] =>
            normalize_segments allowAboveRoot rest
              (if allowAboveRoot then [".."] else [])
        end
      else normalize_segments allowAboveRoot rest (seg :: stack)
  end.

Definition segments (p : string) : list string :=
  normalize_segments (negb (isAbsolute p)) (split_char sep p) [].

Definition normalize (p : string) : string :=
  if String.eqb p EmptyString then "."
  else
    let body := String.concat "/" (segments p) in
    if String.eqb body EmptyString then
      if isAbsolute p then "/" else if ends_with_sep p then "./" else "."
    else
      (if isAbsolute p then "/" else EmptyString) +:+ body
      +:+ (if ends_with_sep p then "/" else EmptyString).

(** [path.join(...parts)] *)
Definition join (parts : list string) : string :=
  let joined := String.concat "/" (filter (fun s => s <> EmptyString) parts) in
  if String.eqb joined EmptyString then "." else normalize joined.

(** The scan of [path.dirname]: from index [i] down to 1, the index of the
    last separator that has a non-separator after it. *)
Fixpoint dirname_end (cs : list ascii) (i : nat) (matchedSlash : bool)
  : option nat :=
  match i with
  | O => None
  | S i' =>
      if Ascii.eqb (nth i cs " "%char) sep then
        if matchedSlash then dirname_end cs i' true else Some i
      else dirname_end cs i' false
  end.

Definition dirname (p : string) : string :=
  if String.eqb p EmptyString then "."
  else
    match dirname_end (list_ascii_of_string p) (String.length p - 1) true with
    | None => if isAbsolute p then "/" else "."
    | Some e =>
        if isAbsolute p && Nat.eqb e 1 then "//" else String.substring 0 e p
    end.

End path.

(** ** The world the script runs in *)

(** A thrown JavaScript value: an [Error] with its message, or anything else. *)
Inductive exn : Type :=
| JsError (message : string)
| JsOther.

(** [error instanceof Error ? error.message : 'Unknown error'] *)
Definition errorMessage (e : exn) : string :=
  match e with
  | JsError m => m
  | JsOther => "Unknown error"
  end.

(** How a computation ends: it returns, it throws, or [process.exit] has
    ended the process (no handler and no [finally] block runs after that). *)
Inductive outcome (A : Type) : Type :=
| Ret (a : A)
| Throw (e : exn)
| Exit (code : Z).
Arguments Ret {A} a.
Arguments Throw {A} e.
Arguments Exit {A} code.

(** The S3 [_Object] of a listing; [Key] may be absent. *)
Record _Object : Type := {
  Key : option string;
  Size : option Z;
  ETag : option string
}.

Record ListObjectsV2CommandOutput : Type := {
  Contents : option (list _Object);
  NextContinuationToken : option string
}.

(** What a [GetObject] request gives: the request fails, the response has no
    body, or the body streams its chunks and then ends or errors. *)
Inductive GetObjectCommandOutput : Type :=
| GetFails (e : exn)
| GetNoBody
| GetBody (chunks : list Buffer) (streamError : option exn).

(** What opening the database read-only and running
    [SELECT * FROM _mf_objects] gives: either step may throw, or the rows
    come back (their [key] column, which the script takes to be a string). *)
Inductive DatabaseOutcome : Type :=
| OpenFails (e : exn)
| QueryFails (e : exn)
| Rows (keys : list string).

(** Console colours, which stand for the emoji prefix as well. *)
Inductive level : Type :=
| LRaw       (* console.log without a colour *)
| LBlue | LSuccess | LError | LWarning | LInfo | LStep.

(** Operations on the outside world, in the order they happen. *)
Inductive event : Type :=
| EvListRemote (bucket : string) (token : option string)
| EvListLocal (bucket : string)
| EvGetObject (bucket key : string)
| EvExec (command : string) (args : list string) (code : Z)
| EvMkdir (p : string)
| EvWrite (p : string)
| EvUnlink (p : string)
| EvRm (p : string)
| EvOpenDatabase (p : string).

Inductive fnode : Type :=
| Dir
| File (content : Buffer).

(** What the script does not decide.  The outcome of an external call may
    depend on when it is made: the time is the number of events before it. *)
Record Env : Type := {
  argv : list string;                (* process.argv.slice(2) *)
  process_env : gmap string string;  (* process.env after dotenv.config() *)
  s3_get : nat -> string -> string -> GetObjectCommandOutput;
  spawn : nat -> string -> list string -> Z * string * string;
                                     (* exit code, stdout, stderr *)
  sqlite : nat -> string -> DatabaseOutcome
}.

Record World : Type := {
  fs : gmap (list string) fnode;   (* by resolved path *)
  console : list (level * string); (* oldest first *)
  trace : list event;              (* oldest first *)
  s3_pages : list (exn + ListObjectsV2CommandOutput)
                                   (* answers to the coming list requests *)
}.

Definition M (A : Type) : Type := Env -> World -> outcome A * World.

Definition ret {A} (a : A) : M A := fun _ w => (Ret a, w).
Definition throw {A} (e : exn) : M A := fun _ w => (Throw e, w).
Definition process_exit {A} (code : Z) : M A := fun _ w => (Exit code, w).

Definition bind {A B} (m : M A) (k : A -> M B) : M B :=
  fun e w =>
    match m e w with
    | (Ret a, w') => k a e w'
    | (Throw x, w') => (Throw x, w')
    | (Exit c, w') => (Exit c, w')
    end.

Notation "'do' x <- m ; k" := (bind m (fun x => k))
  (at level 10, x name, m at level 100, k at level 200).
Notation "m ;; k" := (bind m (fun _ => k))
  (at level 100, k at level 200, right associativity).

(** [try { body } catch (error) { handler }] *)
Definition try_catch {A} (body : M A) (handler : exn -> M A) : M A :=
  fun e w =>
    match body e w with
    | (Throw x, w') => handler x e w'
    | r => r
    end.

(** [try { body } finally { fin }]: [fin] runs after a return and after a
    throw, and what it throws or exits with replaces the body's outcome. *)
Definition try_finally {A} (body : M A) (fin : M unit) : M A :=
  fun e w =>
    match body e w with
    | (Exit c, w') => (Exit c, w')
    | (o, w') =>
        match fin e w' with
        | (Ret _, w'') => (o, w'')
        | (Throw x, w'') => (Throw x, w'')
        | (Exit c, w'') => (Exit c, w'')
        end
    end.

Definition ask : M Env := fun e w => (Ret e, w).
Definition get_world : M World := fun _ w => (Ret w, w).
Definition now : M nat := fun _ w => (Ret (length (trace w)), w).

Definition emit (ev : event) : M unit :=
  fun _ w =>
    (Ret tt, {| fs := fs w; console := console w; trace := trace w ++ [ev];
                s3_pages := s3_pages w |}).

Definition set_fs (f : gmap (list string) fnode) : M unit :=
  fun _ w =>
    (Ret tt, {| fs := f; console := console w; trace := trace w;
                s3_pages := s3_pages w |}).

Definition set_pages (ps : list (exn + ListObjectsV2CommandOutput)) : M unit :=
  fun _ w =>
    (Ret tt, {| fs := fs w; console := console w; trace := trace w;
                s3_pages := ps |}).

(** *** Logging *)

Definition log (message : string) (color : level) : M unit :=
  fun _ w =>
    (Ret tt, {| fs := fs w; console := console w ++ [(color, message)];
                trace := trace w; s3_pages := s3_pages w |}).

Definition logSuccess (message : string) : M unit := log message LSuccess.
Definition logError (message : string) : M unit := log message LError.
Definition logWarning (message : string) : M unit := log message LWarning.
Definition logInfo (message : string) : M unit := log message LInfo.
Definition logStep (message : string) : M unit := log message LStep.

(** *** The file system

    A path names the node at its normalized segments; an absolute path keeps
    a leading ["/"] segment.  The working directory, the root and the
    directories above the working directory always exist. *)

Definition resolve (p : string) : list string :=
  (if path.isAbsolute p then ["/"] else []) ++ path.segments p.

Definition implicit_dir (p : list string) : bool :=
  forallb (String.eqb "..") p || bool_decide (p = ["/"]).

Definition node_at (f : gmap (list string) fnode) (p : list string) : option fnode :=
  if implicit_dir p then Some Dir else f !! p.

Definition is_prefix (p q : list string) : bool :=
  bool_decide (firstn (length p) q = p).

(** [fs.existsSync(p)]; a path with a trailing separator names a directory. *)
Definition existsSync_at (f : gmap (list string) fnode) (p : string) : bool :=
  match node_at f (resolve p) with
  | Some Dir => true
  | Some (File _) => negb (path.ends_with_sep p)
  | None => false
  end.

Definition existsSync (p : string) : M bool :=
  fun _ w => (Ret (existsSync_at (fs w) p), w).

(** Creates the directories along [p], outermost first; a file in the way
    makes [mkdir] fail. *)
Fixpoint mkdir_prefixes (f : gmap (list string) fnode) (done todo : list string)
  : option (gmap (list string) fnode) :=
  match todo with
  | [] => Some f
  | seg :: rest =>
      let here := done ++ [seg] in
      match node_at f here with
      | Some (File _) => None
      | Some Dir => mkdir_prefixes f here rest
      | None => mkdir_prefixes (<[here := Dir]> f) here rest
      end
  end.

(** [fs.mkdirSync(p, { recursive: true })] *)
Definition mkdirSync (p : string) : M unit :=
  do w <- get_world;
  emit (EvMkdir p);;
  match mkdir_prefixes (fs w) [] (resolve p) with
  | Some f => set_fs f
  | None => throw (JsError ("EEXIST: file already exists, mkdir '" +:+ p +:+ "'"))
  end.

(** [fs.rmSync(p, { recursive: true, force: true })]: the node and all below
    it go; a missing path is not an error. *)
Definition rmSync (p : string) : M unit :=
  do w <- get_world;
  emit (EvRm p);;
  set_fs (filter (fun kv => is_prefix (resolve p) kv.1 = false) (fs w)).

(** [fs.writeFileSync(p, data)] *)
Definition writeFileSync (p : string) (data : Buffer) : M unit :=
  do w <- get_world;
  emit (EvWrite p);;
  let r := resolve p in
  if path.ends_with_sep p then
    throw (JsError ("EISDIR: illegal operation on a directory, open '" +:+ p +:+ "'"))
  else
    match node_at (fs w) r, node_at (fs w) (removelast r) with
    | Some Dir, _ =>
        throw (JsError ("EISDIR: illegal operation on a directory, open '" +:+ p +:+ "'"))
    | _, Some Dir => set_fs (<[r := File data]> (fs w))
    | _, Some (File _) =>
        throw (JsError ("ENOTDIR: not a directory, open '" +:+ p +:+ "'"))
    | _, None =>
        throw (JsError ("ENOENT: no such file or directory, open '" +:+ p +:+ "'"))
    end.

(** [fs.unlinkSync(p)] *)
Definition unlinkSync (p : string) : M unit :=
  do w <- get_world;
  emit (EvUnlink p);;
  match node_at (fs w) (resolve p) with
  | Some (File _) => set_fs (delete (resolve p) (fs w))
  | Some Dir =>
      throw (JsError ("EISDIR: illegal operation on a directory, unlink '" +:+ p +:+ "'"))
  | None =>
      throw (JsError ("ENOENT: no such file or directory, unlink '" +:+ p +:+ "'"))
  end.

(** ** The script *)

Definition TEMP_DIR : string := "./temp-r2-sync".

(** *** Command line, read when the module loads *)

Definition forceSync (args : list string) : bool := includes args "--force".
Definition cleanSync (args : list string) : bool := includes args "--clean".

(** The argument starts with ["--wrangler-dir="], so the split has an entry
    at index 1. *)
Definition wranglerDir (args : list string) : string :=
  match find (fun arg => startsWith arg "--wrangler-dir=") args with
  | Some wranglerDirArg => nth 1 (split_char "="%char wranglerDirArg) EmptyString
  | None => "./.wrangler"
  end.

Definition MINIFLARE_DIR (args : list string) : string :=
  path.join [wranglerDir args; "state"; "v3"; "r2"; MINIFLARE_KEY].

(** [args[0]]: [undefined] when there are no arguments. *)
Definition BUCKET_NAME (args : list string) : option string := head args.

(** A [string | undefined] inside a template string. *)
Definition interpolate (v : option string) : string :=
  match v with
  | Some s => s
  | None => "undefined"
  end.

(** *** Remote client *)

Record S3Client : Type := {
  endpoint : string;
  accessKeyId : string;
  secretAccessKey : string
}.

Definition ACCOUNT_ID (e : Env) : option string :=
  process_env e !! "CLOUDFLARE_ACCOUNT_ID".
Definition ACCESS_KEY_ID (e : Env) : option string :=
  process_env e !! "CLOUDFLARE_ACCESS_KEY_ID".
Definition SECRET_ACCESS_KEY (e : Env) : option string :=
  process_env e !! "CLOUDFLARE_SECRET_ACCESS_KEY".

Definition createRemoteClient : M S3Client :=
  do e <- ask;
  if negb (truthy (ACCOUNT_ID e)) || negb (truthy (ACCESS_KEY_ID e))
     || negb (truthy (SECRET_ACCESS_KEY e))
  then
    throw (JsError "Missing required environment variables: CLOUDFLARE_ACCOUNT_ID, CLOUDFLARE_ACCESS_KEY_ID, CLOUDFLARE_SECRET_ACCESS_KEY")
  else
    ret {| endpoint := "https://" +:+ interpolate (ACCOUNT_ID e)
                       +:+ ".r2.cloudflarestorage.com";
           accessKeyId := interpolate (ACCESS_KEY_ID e);
           secretAccessKey := interpolate (SECRET_ACCESS_KEY e) |}.

(** *** Child processes *)

Definition execCommand (command : string) (args : list string) : M string :=
  do e <- ask;
  do t <- now;
  let '(code, stdout, stderr) := spawn e t command args in
  emit (EvExec command args code);;
  if (code =? 0)%Z then ret stdout
  else throw (JsError ("Command failed with code " +:+ pretty code +:+ ": "
                       +:+ stderr)).

(** *** Directories *)

Definition ensureDirectoryExists (dir : string) : M unit :=
  do present <- existsSync dir;
  if negb present then
    mkdirSync dir;;
    logSuccess ("Created directory: " +:+ dir)
  else ret tt.

Definition cleanupDirectory (dir : string) : M unit :=
  do present <- existsSync dir;
  if present then
    rmSync dir;;
    logSuccess ("Cleaned up directory: " +:+ dir)
  else ret tt.

(** *** Streams *)

Definition streamToBuffer (chunks : list Buffer) (streamError : option exn)
  : M Buffer :=
  match streamError with
  | Some x => throw x
  | None => ret (Buffer_concat chunks)
  end.

(** *** Remote listing *)

(** The [do ... while (continuationToken)] loop, one iteration per answer of
    the store.  A request the store does not answer fails. *)
Fixpoint listRemoteObjects_loop (pages : list (exn + ListObjectsV2CommandOutput))
    (bucketName : string) (objects : list _Object)
    (continuationToken : option string) : M (list _Object) :=
  let fails error :=
    logError ("Failed to list remote objects: " +:+ errorMessage error);;
    throw error in
  emit (EvListRemote bucketName
          (if truthy continuationToken then continuationToken else None));;
  match pages with
  | [] => fails (JsError "getaddrinfo ENOTFOUND")
  | answer :: rest =>
      set_pages rest;;
      match answer with
      | inl error => fails error
      | inr response =>
          let objects' :=
            match Contents response with
            | Some contents => objects ++ contents
            | None => objects
            end in
          if truthy (NextContinuationToken response)
          then listRemoteObjects_loop rest bucketName objects'
                 (NextContinuationToken response)
          else ret objects'
      end
  end.

Definition listRemoteObjects (s3Client : S3Client) (bucketName : string)
  : M (list _Object) :=
  do w <- get_world;
  listRemoteObjects_loop (s3_pages w) bucketName [] None.

(** *** Local listing *)

Definition listLocalObjectsFromDatabase (bucketName : string) : M (list string) :=
  try_catch
    (do e <- ask;
     do dirPresent <- existsSync (MINIFLARE_DIR (argv e));
     if negb dirPresent then
       logWarning "Miniflare R2 directory does not exist for bucket";;
       ret []
     else
       let databaseName := durableObjectNamespaceIdFromName MINIFLARE_KEY bucketName in
       let dbPath := MINIFLARE_DIR (argv e) +:+ "/" +:+ databaseName +:+ ".sqlite" in
       do dbPresent <- existsSync dbPath;
       if negb dbPresent then
         logWarning "No SQLite database file found in Miniflare directory";;
         ret []
       else
         logInfo ("Reading from SQLite database: " +:+ dbPath);;
         do t <- now;
         emit (EvOpenDatabase dbPath);;
         match sqlite e t dbPath with
         | OpenFails x => throw x
         | QueryFails x => throw x
         | Rows objects =>
             ret (fold_left (fun keys object => keys ++ [object]) objects [])
         end)
    (fun error =>
       logError ("Failed to list local objects: " +:+ errorMessage error);;
       ret []).

Definition listLocalObjects (bucketName : string) : M (list string) :=
  emit (EvListLocal bucketName);;
  try_catch
    (listLocalObjectsFromDatabase bucketName)
    (fun error =>
       logWarning ("Failed to list local objects: " +:+ errorMessage error);;
       logWarning "This might be normal if the local R2 bucket is empty or doesn't exist yet";;
       ret []).

(** *** Transfer *)

Definition downloadObject (s3Client : S3Client) (bucketName key localPath : string)
  : M unit :=
  try_catch
    (do e <- ask;
     do t <- now;
     emit (EvGetObject bucketName key);;
     match s3_get e t bucketName key with
     | GetFails x => throw x
     | GetNoBody => throw (JsError "No body in response")
     | GetBody chunks streamError =>
         do buffer <- streamToBuffer chunks streamError;
         let dir := path.dirname localPath in
         ensureDirectoryExists dir;;
         writeFileSync localPath buffer;;
         logSuccess ("Downloaded: " +:+ key)
     end)
    (fun error =>
       logError ("Failed to download " +:+ key +:+ ": " +:+ errorMessage error);;
       throw error).

Definition uploadObjectToLocal (bucketName key filePath : string) : M unit :=
  try_catch
    (execCommand "wrangler"
       ["r2"; "object"; "put"; bucketName +:+ "/" +:+ key; "--file"; filePath];;
     logSuccess ("Uploaded to local: " +:+ key))
    (fun error =>
       logError ("Failed to upload " +:+ key +:+ " to local: " +:+ errorMessage error);;
       throw error).

Definition cleanLocalBucket : M unit :=
  try_catch
    (logStep "Cleaning local R2 bucket...";;
     let wranglerPath := ".wrangler/state/v3/r2" in
     do present <- existsSync wranglerPath;
     if present then
       logSuccess "Cleaning local R2 bucket...";;
       cleanupDirectory wranglerPath;;
       logSuccess "Cleaned local bucket"
     else
       logWarning "Local R2 bucket does not exist")
    (fun error =>
       logError ("Failed to clean local bucket: " +:+ errorMessage error);;
       throw error).

(** The [for ... of] loop of [syncObjects]; [total] is
    [objectsToSync.length]. *)
Fixpoint syncObjects_loop (remoteClient : S3Client) (bucketName : string)
    (total : nat) (objects : list _Object) (processed : nat) : M unit :=
  match objects with
  | [] => ret tt
  | object :: rest =>
      if negb (truthy (Key object)) then
        syncObjects_loop remoteClient bucketName total rest processed
      else
        let key := interpolate (Key object) in
        let processed := S processed in
        logStep ("[" +:+ pretty processed +:+ "/" +:+ pretty total
                 +:+ "] Processing: " +:+ key);;
        let tempFilePath := path.join [TEMP_DIR; key] in
        downloadObject remoteClient bucketName key tempFilePath;;
        uploadObjectToLocal bucketName key tempFilePath;;
        do present <- existsSync tempFilePath;
        (if present then unlinkSync tempFilePath else ret tt);;
        syncObjects_loop remoteClient bucketName total rest processed
  end.

Definition syncObjects (remoteClient : S3Client) (bucketName : string)
    (objectsToSync : list _Object) : M unit :=
  syncObjects_loop remoteClient bucketName (length objectsToSync) objectsToSync 0.

(** *** Reconciliation: the [filter] of [syncR2ToLocal] *)

Definition objectsToSync (forceSync cleanSync : bool)
    (remoteObjects : list _Object) (localObjects : list string) : list _Object :=
  List.filter
    (fun obj =>
       let key := Key obj in
       if negb (truthy key) then false
       else if forceSync || cleanSync then true
       else negb (includes localObjects (interpolate key)))
    remoteObjects.

(** *** Orchestration *)

(** The [try { ... } catch] part of [syncR2ToLocal]. *)
Definition syncR2ToLocal_try : M unit :=
  try_catch
    (do e <- ask;
     let bucket := interpolate (BUCKET_NAME (argv e)) in
     logStep "Initializing remote R2 client...";;
     do remoteClient <- createRemoteClient;
     ensureDirectoryExists TEMP_DIR;;
     (if cleanSync (argv e) then
        logStep "Clean mode enabled - removing all local objects...";;
        cleanLocalBucket
      else ret tt);;
     logStep ("Listing objects in remote bucket: " +:+ bucket +:+ "...");;
     do remoteObjects <- listRemoteObjects remoteClient bucket;
     if Nat.eqb (length remoteObjects) 0 then
       logWarning "No objects found in remote bucket"
     else
       logSuccess ("Found " +:+ pretty (length remoteObjects)
                   +:+ " objects in remote bucket");;
       do localObjects <-
         (if negb (cleanSync (argv e)) && negb (forceSync (argv e)) then
            logStep "Listing objects in local Wrangler R2...";;
            do found <- listLocalObjects bucket;
            logSuccess ("Found " +:+ pretty (length found)
                        +:+ " objects in local bucket");;
            ret found
          else ret []);
       let toSync :=
         objectsToSync (forceSync (argv e)) (cleanSync (argv e))
           remoteObjects localObjects in
       if Nat.eqb (length toSync) 0 then
         logSuccess "All objects are already in sync!"
       else
         logInfo ("Need to sync " +:+ pretty (length toSync) +:+ " objects");;
         syncObjects remoteClient bucket toSync;;
         logSuccess ("Successfully synced " +:+ pretty (length toSync)
                     +:+ " objects to local Wrangler!"))
    (fun error =>
       logError ("Sync failed: " +:+ errorMessage error);;
       throw error).

(** Its [finally] block. *)
Definition syncR2ToLocal_finally : M unit :=
  logStep "Cleaning up temporary files...";;
  cleanupDirectory TEMP_DIR.

Definition syncR2ToLocal : M unit :=
  log "Starting R2 sync to local Wrangler..." LBlue;;
  try_finally syncR2ToLocal_try syncR2ToLocal_finally.

Definition newline : string := String (ascii_of_nat 10) EmptyString.

Fixpoint forEach {A} (l : list A) (f : A -> M unit) : M unit :=
  match l with
  | [] => ret tt
  | x :: rest => f x;; forEach rest f
  end.

Definition checkEnvironmentVariables : M unit :=
  do e <- ask;
  let required :=
    ["CLOUDFLARE_ACCOUNT_ID"; "CLOUDFLARE_ACCESS_KEY_ID";
     "CLOUDFLARE_SECRET_ACCESS_KEY"] in
  let missing :=
    List.filter (fun env => negb (truthy (process_env e !! env))) required in
  if Nat.ltb 0 (length missing) then
    logError "Missing required environment variables:";;
    forEach missing (fun env => logError ("  - " +:+ env));;
    logError (newline +:+ "Please set these in your environment or in a .env file");;
    process_exit 1
  else ret tt.

Definition checkWranglerAvailable : M unit :=
  try_catch
    (execCommand "npx" ["wrangler"; "--version"];;
     logSuccess "Wrangler CLI is available")
    (fun _ =>
       logError "Wrangler CLI is not available or not in PATH";;
       logError "Please install Wrangler: npm install -g wrangler";;
       process_exit 1).

(** The text [printUsage] prints, line by line. *)
Definition usage : string :=
  String.concat newline
    [EmptyString;
     "R2 Sync Tool";
     EmptyString;
     "Usage: npm run sync-r2-ts <bucket-name> [options]";
     EmptyString;
     "Arguments:";
     "  bucket-name                     Name of the R2 bucket to sync";
     EmptyString;
     "Options:";
     "  --force                        Force sync all objects (overwrite existing)";
     "  --clean                        Clean local bucket before syncing (delete all local objects first)";
     "  --wrangler-dir <directory>     Custom location of .wrangler directory (default: ./.wrangler)";
     EmptyString;
     "Examples:";
     "  npm run sync-r2-ts my-bucket                     # Sync only missing objects";
     "  npm run sync-r2-ts my-bucket --force             # Force sync all objects";
     "  npm run sync-r2-ts my-bucket --clean             # Clean local bucket and sync all objects";
     "  npm run sync-r2-ts my-bucket --wrangler-dir ../  # Use custom .wrangler location";
     EmptyString;
     "Environment Variables Required:";
     "  CLOUDFLARE_ACCOUNT_ID";
     "  CLOUDFLARE_ACCESS_KEY_ID";
     "  CLOUDFLARE_SECRET_ACCESS_KEY";
     EmptyString].

Definition printUsage : M unit := log usage LRaw.

Definition main : M unit :=
  try_catch
    (do e <- ask;
     let args := argv e in
     if includes args "--help" || includes args "-h" then printUsage
     else if negb (truthy (BUCKET_NAME args)) then
       logError "Bucket name is required";;
       printUsage
     else
       logInfo ("Using wrangler directory: " +:+ wranglerDir args);;
       logInfo ("Using bucket name: " +:+ interpolate (BUCKET_NAME args));;
       (if cleanSync args then
          logInfo "Clean mode enabled - will delete all local objects first"
        else if forceSync args then
          logInfo "Force mode enabled - will overwrite all objects"
        else
          logInfo "Normal mode - will sync only missing objects");;
       checkEnvironmentVariables;;
       logInfo "Environment variables checked";;
       checkWranglerAvailable;;
       logInfo "Wrangler available";;
       syncR2ToLocal)
    (fun error =>
       logError ("Script failed: " +:+ errorMessage error);;
       process_exit 1).

(** The status the process ends with: [process.exit]'s argument, 0 when
    [main] returns, 1 for a rejection nothing handles. *)
Definition exit_status {A} (r : outcome A * World) : Z :=
  match r.1 with
  | Ret _ => 0
  | Exit code => code
  | Throw _ => 1
  end.

(** ** Notions the properties are stated with *)

(** The reconciler as the specification words it: the remote objects whose
    key is defined, non-empty and absent from the local keys. *)
Definition missing_locally (localKeys : list string) (o : _Object) : Prop :=
  match Key o with
  | Some k => k <> EmptyString /\ k ∉ localKeys
  | None => False
  end.

#[global] Instance missing_locally_dec localKeys o : Decision (missing_locally localKeys o).
Proof. unfold missing_locally. destruct (Key o); apply _. Defined.

Definition has_key (o : _Object) : Prop :=
  match Key o with
  | Some k => k <> EmptyString
  | None => False
  end.

#[global] Instance has_key_dec o : Decision (has_key o).
Proof. unfold has_key. destruct (Key o); apply _. Defined.

(** Events other than a local listing and a child process. *)
Definition basic_event (ev : event) : Prop :=
  match ev with
  | EvListLocal _ => False
  | EvExec _ _ _ => False
  | _ => True
  end.

(** The target [bucket/key] of a [wrangler r2 object put] that exited with 0. *)
Definition put_target (ev : event) : option string :=
  match ev with
  | EvExec command args code =>
      if decide (command = "wrangler" /\ firstn 3 args = ["r2"; "object"; "put"]
                 /\ code = 0%Z)
      then args !! 3%nat else None
  | _ => None
  end.

(** The uploads that succeeded, oldest first. *)
Definition successful_puts (tr : list event) : list string := omap put_target tr.

(** The objects of a plan that are transferred, by key. *)
Definition transferred_keys (objects : list _Object) : list string :=
  omap (fun o => if truthy (Key o) then Key o else None) objects.

(** What makes a relation an invariant of every step: it is a preorder, it
    does not look at the console, the file system or the pending answers, and
    it admits the events in [ok_event], among them the basic ones. *)
Record stable (R : World -> World -> Prop) (ok_event : event -> Prop) : Prop := {
  st_refl : forall w, R w w;
  st_trans : forall w1 w2 w3, R w1 w2 -> R w2 w3 -> R w1 w3;
  st_log : forall w entry,
    R w {| fs := fs w; console := console w ++ [entry]; trace := trace w;
           s3_pages := s3_pages w |};
  st_fs : forall w f,
    R w {| fs := f; console := console w; trace := trace w; s3_pages := s3_pages w |};
  st_pages : forall w ps,
    R w {| fs := fs w; console := console w; trace := trace w; s3_pages := ps |};
  st_emit : forall w ev, ok_event ev ->
    R w {| fs := fs w; console := console w; trace := trace w ++ [ev];
           s3_pages := s3_pages w |};
  st_basic : forall ev, basic_event ev -> ok_event ev
}.

Section InvariantDefinition.
Variable e : Env.
Variable R : World -> World -> Prop.
Variable allow_exit : bool.

(** Only [process.exit] where it is allowed. *)
Definition outcome_ok {A} (o : outcome A) : Prop :=
  match o with
  | Exit _ => allow_exit = true
  | _ => True
  end.

(** [m] keeps [R] between the world it starts in and the world it leaves. *)
Definition invariant {A} (m : M A) : Prop :=
  forall w, R w (m e w).2 /\ outcome_ok (m e w).1.

End InvariantDefinition.

(** The events added to the trace are all of a kind. *)
Definition trace_grows_by (P : event -> Prop) (w w' : World) : Prop :=
  exists evs, trace w' = trace w ++ evs /\ Forall P evs.

Definition not_local_listing (ev : event) : Prop := forall b, ev <> EvListLocal b.

(** What [fs.rmSync(p, { recursive: true, force: true })] leaves. *)
Definition without_tree (p : string) (f : gmap (list string) fnode)
  : gmap (list string) fnode :=
  filter (fun kv => is_prefix (resolve p) kv.1 = false) f.

Definition dbPath_of (e : Env) (bucketName : string) : string :=
  MINIFLARE_DIR (argv e) +:+ "/"
  +:+ durableObjectNamespaceIdFromName MINIFLARE_KEY bucketName +:+ ".sqlite".

(** The four ways a local listing goes. *)
Inductive local_listing : Type :=
| DirectoryAbsent
| DatabaseAbsent
| ReadFails (x : exn)
| ReadGives (keys : list string).

(** Which one, in a world [w]; the database is opened one event after the
    listing starts. *)
Definition local_listing_of (bucketName : string) (e : Env) (w : World)
  : local_listing :=
  if negb (existsSync_at (fs w) (MINIFLARE_DIR (argv e))) then DirectoryAbsent
  else if negb (existsSync_at (fs w) (dbPath_of e bucketName)) then DatabaseAbsent
  else
    match sqlite e (S (length (trace w))) (dbPath_of e bucketName) with
    | OpenFails x => ReadFails x
    | QueryFails x => ReadFails x
    | Rows keys => ReadGives keys
    end.

(** The keys returned, the lines logged and the events after [EvListLocal]. *)
Definition local_listing_result (dbPath : string) (c : local_listing)
  : list string * list (level * string) * list event :=
  match c with
  | DirectoryAbsent =>
      ([], [(LWarning, "Miniflare R2 directory does not exist for bucket")], [])
  | DatabaseAbsent =>
      ([], [(LWarning, "No SQLite database file found in Miniflare directory")], [])
  | ReadFails x =>
      ([], [(LInfo, "Reading from SQLite database: " +:+ dbPath);
            (LError, "Failed to list local objects: " +:+ errorMessage x)],
       [EvOpenDatabase dbPath])
  | ReadGives keys =>
      (keys, [(LInfo, "Reading from SQLite database: " +:+ dbPath)],
       [EvOpenDatabase dbPath])
  end.

Definition put_args (bucketName key filePath : string) : list string :=
  ["r2"; "object"; "put"; bucketName +:+ "/" +:+ key; "--file"; filePath].

(** Steps that run no child process leave the successful uploads as they
    are. *)
Definition same_puts (w w' : World) : Prop :=
  successful_puts (trace w') = successful_puts (trace w).

Definition no_put (ev : event) : Prop := put_target ev = None.

Definition credentials_missing (e : Env) : bool :=
  negb (truthy (process_env e !! "CLOUDFLARE_ACCOUNT_ID"))
  || negb (truthy (process_env e !! "CLOUDFLARE_ACCESS_KEY_ID"))
  || negb (truthy (process_env e !! "CLOUDFLARE_SECRET_ACCESS_KEY")).

(** The exit code of [npx wrangler --version], run when the trace is [tr]. *)
Definition wrangler_version_code (e : Env) (tr : list event) : Z :=
  (spawn e (length tr) "npx" ["wrangler"; "--version"]).1.1.

Definition mode_line (args : list string) : string :=
  if cleanSync args then "Clean mode enabled - will delete all local objects first"
  else if forceSync args then "Force mode enabled - will overwrite all objects"
  else "Normal mode - will sync only missing objects".

(** The world in which the sync starts, once the checks have passed. *)
Definition after_checks (e : Env) (w : World) : World :=
  {| fs := fs w;
     console := console w ++
       [(LInfo, "Using wrangler directory: " +:+ wranglerDir (argv e));
        (LInfo, "Using bucket name: " +:+ interpolate (BUCKET_NAME (argv e)));
        (LInfo, mode_line (argv e));
        (LInfo, "Environment variables checked");
        (LSuccess, "Wrangler CLI is available");
        (LInfo, "Wrangler available")];
     trace := trace w ++ [EvExec "npx" ["wrangler"; "--version"] 0];
     s3_pages := s3_pages w |}.

(** The exit status, case by case. *)
Definition expected_status (e : Env) (w : World) : Z :=
  if includes (argv e) "--help" || includes (argv e) "-h" then 0
  else if negb (truthy (BUCKET_NAME (argv e))) then 0
  else if credentials_missing e then 1
  else if negb (wrangler_version_code e (trace w) =? 0)%Z then 1
  else
    match (syncR2ToLocal e (after_checks e w)).1 with
    | Ret _ => 0
    | _ => 1
    end.

(** [main] once the bucket name has been logged: the mode line, the two
    checks and the sync; and the handler of [main]. *)
Definition main_proceed : M unit :=
  do e <- ask;
  (if cleanSync (argv e) then
     logInfo "Clean mode enabled - will delete all local objects first"
   else if forceSync (argv e) then
     logInfo "Force mode enabled - will overwrite all objects"
   else
     logInfo "Normal mode - will sync only missing objects");;
  checkEnvironmentVariables;;
  logInfo "Environment variables checked";;
  checkWranglerAvailable;;
  logInfo "Wrangler available";;
  syncR2ToLocal.

Definition main_handler (error : exn) : M unit :=
  logError ("Script failed: " +:+ errorMessage error);;
  process_exit 1.

Definition with_console (w : World) (entries : list (level * string)) : World :=
  {| fs := fs w; console := console w ++ entries; trace := trace w;
     s3_pages := s3_pages w |}.

(** The informational exit for a missing bucket name: the error line, the
    usage, and a return. *)
Definition bucket_required_exit (w : World) : outcome unit * World :=
  (Ret tt, with_console w [(LError, "Bucket name is required"); (LRaw, usage)]).

Definition help_requested (args : list string) : bool :=
  includes args "--help" || includes args "-h".

Definition console_grows (w w' : World) : Prop :=
  exists entries, console w' = console w ++ entries.

(** ** Sample environments and worlds *)

Module Sample.

Definition credentials : gmap string string :=
  list_to_map [("CLOUDFLARE_ACCOUNT_ID", "acc"); ("CLOUDFLARE_ACCESS_KEY_ID", "id");
               ("CLOUDFLARE_SECRET_ACCESS_KEY", "secret")].

(** Every download gives the key as content; every child process exits with
    0, except an upload into [fails]; the database holds [rows]. *)
Definition env (args : list string) (fails : string) (rows : list string) : Env :=
  {| argv := args;
     process_env := credentials;
     s3_get := fun _ _ key => GetBody [utf8 key] None;
     spawn := fun _ _ a =>
       if bool_decide (a !! 3%nat = Some fails) then (1%Z, EmptyString, "rejected")
       else (0%Z, EmptyString, EmptyString);
     sqlite := fun _ _ => Rows rows |}.

Definition object (k : string) : _Object :=
  {| Key := Some k; Size := None; ETag := None |}.

Definition dirs (ps : list (list string)) : gmap (list string) fnode :=
  list_to_map (map (fun p => (p, Dir)) ps).

Definition world (f : gmap (list string) fnode) (objects : list _Object) : World :=
  {| fs := f; console := []; trace := [];
     s3_pages := [inr {| Contents := Some objects; NextContinuationToken := None |}] |}.

(** A project with its own [.wrangler] state and a second state tree at
    [../other/.wrangler]. *)
Definition two_trees : gmap (list string) fnode :=
  dirs [[".wrangler"]; [".wrangler"; "state"]; [".wrangler"; "state"; "v3"];
        [".wrangler"; "state"; "v3"; "r2"];
        [".wrangler"; "state"; "v3"; "r2"; "miniflare-R2BucketObject"];
        [".."; "other"]; [".."; "other"; ".wrangler"];
        [".."; "other"; ".wrangler"; "state"];
        [".."; "other"; ".wrangler"; "state"; "v3"];
        [".."; "other"; ".wrangler"; "state"; "v3"; "r2"];
        [".."; "other"; ".wrangler"; "state"; "v3"; "r2"; "miniflare-R2BucketObject"]].

Definition client : S3Client :=
  {| endpoint := "https://acc.r2.cloudflarestorage.com";
     accessKeyId := "id"; secretAccessKey := "secret" |}.

End Sample.

(** ** Notions for the further properties *)

(** The objects of one answer; an answer without [Contents] has none. *)
Definition contents_of (response : ListObjectsV2CommandOutput) : list _Object :=
  match Contents response with
  | Some contents => contents
  | None => []
  end.

(** The list requests of a paginated listing: the first without a token,
    each further one with the token of the answer before it. *)
Definition list_requests (bucketName : string)
    (answered : list ListObjectsV2CommandOutput) : list event :=
  EvListRemote bucketName None
  :: map (fun r => EvListRemote bucketName (NextContinuationToken r)) answered.


(** [f'] has every node of [f], and only directories besides. *)
Definition only_adds_dirs (f f' : gmap (list string) fnode) : Prop :=
  forall q, f' !! q = f !! q \/ (f !! q = None /\ f' !! q = Some Dir).

(** The child processes of a trace. *)
Definition is_exec (ev : event) : bool :=
  match ev with
  | EvExec _ _ _ => true
  | _ => false
  end.

Definition execs (tr : list event) : list event := List.filter is_exec tr.

Definition same_execs (w w' : World) : Prop := execs (trace w') = execs (trace w).

Definition not_exec (ev : event) : Prop := is_exec ev = false.

(** The downloads of a trace, by key. *)
Definition get_key (ev : event) : option string :=
  match ev with
  | EvGetObject _ key => Some key
  | _ => None
  end.

Definition downloads (tr : list event) : list string := omap get_key tr.

(** Events that move no object and read no local state. *)
Definition quiet_event (ev : event) : Prop :=
  match ev with
  | EvGetObject _ _ => False
  | EvExec _ _ _ => False
  | EvListLocal _ => False
  | EvOpenDatabase _ => False
  | _ => True
  end.

(** The error a download ends with when the body does not arrive whole. *)
Definition download_error (r : GetObjectCommandOutput) : option exn :=
  match r with
  | GetFails x => Some x
  | GetNoBody => Some (JsError "No body in response")
  | GetBody _ (Some x) => Some x
  | GetBody _ None => None
  end.

Definition required_variables : list string :=
  ["CLOUDFLARE_ACCOUNT_ID"; "CLOUDFLARE_ACCESS_KEY_ID"; "CLOUDFLARE_SECRET_ACCESS_KEY"].

(** The required variables that are unset or empty, in the order of the
    list. *)
Definition missing_variables (e : Env) : list string :=
  List.filter (fun name => negb (truthy (process_env e !! name))) required_variables.

(** [c] does not occur in [s]. *)
Fixpoint free_of (c : ascii) (s : string) : Prop :=
  match s with
  | EmptyString => True
  | String a rest => a <> c /\ free_of c rest
  end.

(** The transfers of a trace: the downloads and the child processes. *)
Definition is_transfer (ev : event) : bool :=
  match ev with
  | EvGetObject _ _ => true
  | EvExec _ _ _ => true
  | _ => false
  end.

Definition transfers (tr : list event) : list event := List.filter is_transfer tr.

(** The transfers of one object that goes through: its download, then its
    upload from the scratch file. *)
Definition transfer_of (bucketName key : string) : list event :=
  [EvGetObject bucketName key;
   EvExec "wrangler" (put_args bucketName key (path.join [TEMP_DIR; key])) 0].

(** The part of [s] before the first [c]: all of [s] when [c] does not
    occur. *)
Fixpoint before_first (c : ascii) (s : string) : string :=
  match s with
  | EmptyString => EmptyString
  | String a rest => if Ascii.eqb a c then EmptyString else String a (before_first c rest)
  end.

(** The lines [checkEnvironmentVariables] logs for the missing variables. *)
Definition missing_report (missing : list string) : list (level * string) :=
  (LError, "Missing required environment variables:")
  :: map (fun name => (LError, "  - " +:+ name)) missing
  ++ [(LError, newline +:+ "Please set these in your environment or in a .env file")].

Definition missing_credentials_message : string :=
  "Missing required environment variables: CLOUDFLARE_ACCOUNT_ID, CLOUDFLARE_ACCESS_KEY_ID, CLOUDFLARE_SECRET_ACCESS_KEY".

(** * Properties *)

(** ** Identifier derivation *)

Section Derivation.
Import SHA256.

Lemma be_bytes_length n x : length (be_bytes n x) = n.
Proof. unfold be_bytes. by rewrite length_map, length_seq. Qed.

Lemma digest_bytes_length h : length (digest_bytes h) = 32.
Proof. unfold digest_bytes. rewrite !length_app, !be_bytes_length. reflexivity. Qed.

Lemma sha256_length msg : length (sha256 msg) = 32.
Proof. apply digest_bytes_length. Qed.

Lemma hmac_length key msg : length (hmac key msg) = 32.
Proof. apply sha256_length. Qed.

Lemma hex_digit_is_hex n : is_hex_char (hex_digit n) = true.
Proof.
  unfold hex_digit.
  destruct (nth_in_or_default (Z.to_nat n)
              (list_ascii_of_string "0123456789abcdef") "0"%char) as [Hin | ->];
    [| reflexivity].
  revert Hin. generalize (nth (Z.to_nat n)
    (list_ascii_of_string "0123456789abcdef") "0"%char).
  intros c Hin. simpl in Hin.
  repeat (destruct Hin as [<- | Hin]; [reflexivity |]). destruct Hin.
Qed.

Lemma string_of_list_ascii_length (l : list ascii) :
  String.length (string_of_list_ascii l) = length l.
Proof. induction l as [| c l IH]; simpl; [reflexivity | by rewrite IH]. Qed.

Lemma toString_hex_length b : String.length (toString_hex b) = 2 * length b.
Proof.
  unfold toString_hex. rewrite string_of_list_ascii_length.
  induction b as [| x b IH]; simpl; [reflexivity | rewrite IH; lia].
Qed.

Lemma toString_hex_chars b :
  forallb is_hex_char (list_ascii_of_string (toString_hex b)) = true.
Proof.
  unfold toString_hex. rewrite list_ascii_of_string_of_list_ascii.
  induction b as [| x b IH]; [reflexivity |].
  cbn [flat_map app forallb]. by rewrite !hex_digit_is_hex, IH.
Qed.

Lemma firstn_16_of_32 (b : list Z) : length b = 32 -> length (firstn 16 b) = 16.
Proof. intros H. rewrite length_firstn, H. reflexivity. Qed.

End Derivation.

#[local] Opaque SHA256.sha256 SHA256.hmac.

Lemma derivation_unfold (uniqueKey B : string) :
  durableObjectNamespaceIdFromName uniqueKey B = deriveId_spec uniqueKey B.
Proof.
  unfold durableObjectNamespaceIdFromName, deriveId_spec, Hmac_digest, Hmac_update,
    createHmac_sha256, Hash_digest, Hash_update, createHash_sha256, subarray,
    Buffer_concat.
  generalize (utf8 uniqueKey) (utf8 B). intros nk nb.
  cbn [hmac_key hmac_data hash_data concat skipn Nat.sub].
  rewrite !app_nil_l, app_nil_r. reflexivity.
Qed.

Lemma deriveId_spec_length (uniqueKey B : string) :
  String.length (deriveId_spec uniqueKey B) = 64.
Proof.
  unfold deriveId_spec. generalize (utf8 uniqueKey) (utf8 B). intros nk nb.
  rewrite toString_hex_length, length_app.
  rewrite !firstn_16_of_32 by apply hmac_length. reflexivity.
Qed.

(** C1. For every bucket name the derived identifier is the hex encoding of
    [nameDigest ++ hmac], with [key = SHA256(namespace)], [nameDigest] the
    first 16 bytes of [HMAC-SHA256(key, name)] and [hmac] the first 16 bytes
    of [HMAC-SHA256(key, nameDigest)]; it has exactly 64 characters, all of
    them hex digits.  Being a function of the name, it is deterministic. *)
Theorem durableObjectNamespaceIdFromName_derivation (B : string) :
  durableObjectNamespaceIdFromName MINIFLARE_KEY B = deriveId_spec MINIFLARE_KEY B
  /\ String.length (durableObjectNamespaceIdFromName MINIFLARE_KEY B) = 64
  /\ forallb is_hex_char
       (list_ascii_of_string (durableObjectNamespaceIdFromName MINIFLARE_KEY B)) = true.
Proof.
  split; [| split].
  - apply derivation_unfold.
  - rewrite derivation_unfold. apply deriveId_spec_length.
  - apply toString_hex_chars.
Qed.

(** The identifier of the bucket in the README's sample output. *)
Example durableObjectNamespaceIdFromName_readme :
  durableObjectNamespaceIdFromName MINIFLARE_KEY "fullstackgaming-images-prod"
  = "69d025a62469192289be9b837d21e1cbb5f8f8e5eb7294fa998e1aff862170f7".
Proof. vm_compute. reflexivity. Qed.

(** The FIPS 180-4 sample digest of ["abc"]. *)
Example sha256_abc :
  toString_hex (SHA256.sha256 (utf8 "abc"))
  = "ba7816bf8f01cfea414140de5dae2223b00361a396177a9cb410ff61f20015ad".
Proof. vm_compute. reflexivity. Qed.

(** ** Paths *)

Example path_join_default_state_dir :
  MINIFLARE_DIR ["my-bucket"] = ".wrangler/state/v3/r2/miniflare-R2BucketObject".
Proof. reflexivity. Qed.

Example path_join_resolves_dots :
  path.join ["./temp-r2-sync"; "a/../../b/c/"] = "b/c/"
  /\ path.join ["../x/"; "state"] = "../x/state"
  /\ path.join ["/a/../.."; "state"] = "/state"
  /\ path.join [EmptyString; "state"] = "state".
Proof. repeat split. Qed.

Example path_dirname_samples :
  path.dirname "temp-r2-sync/a/b" = "temp-r2-sync/a"
  /\ path.dirname "temp-r2-sync/a/" = "temp-r2-sync"
  /\ path.dirname "temp-r2-sync" = "."
  /\ path.dirname "/a" = "/".
Proof. repeat split. Qed.

Example wranglerDir_split :
  wranglerDir ["b"; "--wrangler-dir=../x=y"] = "../x"
  /\ wranglerDir ["b"; "--wrangler-dir="] = EmptyString
  /\ wranglerDir ["b"; "--wrangler-dir"] = "./.wrangler".
Proof. repeat split. Qed.

(** ** Reconciliation *)

Lemma includes_elem_of (l : list string) (x : string) :
  includes l x = true <-> x ∈ l.
Proof.
  unfold includes. rewrite existsb_exists. split.
  - intros (y & Hin & Heq). apply String.eqb_eq in Heq. subst y.
    by apply list_elem_of_In.
  - intros Hin. exists x. split; [by apply list_elem_of_In | apply String.eqb_refl].
Qed.

Lemma truthy_Some (s : string) : truthy (Some s) = true <-> s <> EmptyString.
Proof.
  unfold truthy. destruct (String.eqb_spec s EmptyString); simpl; split; congruence.
Qed.

Lemma truthy_interpolate (v : option string) :
  truthy v = true -> v = Some (interpolate v) /\ interpolate v <> EmptyString.
Proof.
  destruct v as [s |]; [| discriminate]. intros H. split; [reflexivity |].
  by apply truthy_Some.
Qed.

(** A boolean [List.filter] is the filter of the property it decides. *)
Lemma List_filter_decides {A} (f : A -> bool) (P : A -> Prop)
    `{!forall x, Decision (P x)} (l : list A) :
  (forall x, f x = true <-> P x) -> List.filter f l = filter P l.
Proof.
  intros Hf. induction l as [| x l IH]; [reflexivity |].
  simpl. rewrite filter_cons, IH.
  destruct (decide (P x)) as [HP | HP].
  - apply Hf in HP. by rewrite HP.
  - destruct (f x) eqn:Hfx; [| reflexivity]. apply Hf in Hfx. contradiction.
Qed.

Lemma objectsToSync_normal_filter (remote : list _Object) (localKeys : list string) :
  objectsToSync false false remote localKeys = filter (missing_locally localKeys) remote.
Proof.
  unfold objectsToSync. apply List_filter_decides. intros o.
  unfold missing_locally. destruct (Key o) as [k |] eqn:Hk; simpl.
  - destruct (String.eqb_spec k EmptyString) as [-> | Hne]; simpl.
    + split; [discriminate | intros [? _]; congruence].
    + rewrite negb_true_iff, <- not_true_iff_false, includes_elem_of. tauto.
  - split; [discriminate | tauto].
Qed.

Lemma objectsToSync_all_filter (force clean : bool) (remote : list _Object)
    (localKeys : list string) :
  force || clean = true ->
  objectsToSync force clean remote localKeys = filter has_key remote.
Proof.
  intros Hmode. unfold objectsToSync. apply List_filter_decides. intros o.
  unfold has_key. rewrite Hmode. destruct (Key o) as [k |]; simpl.
  - destruct (String.eqb_spec k EmptyString); simpl; split; congruence.
  - split; [discriminate | tauto].
Qed.

(** C3. In normal mode the reconciler selects exactly the remote objects
    whose key is defined, non-empty and absent from the local keys: the
    selection is the remote listing filtered by that property, so it keeps
    the listing's order and its repetitions. *)
Theorem objectsToSync_normal_mode (remote : list _Object) (localKeys : list string) :
  objectsToSync false false remote localKeys = filter (missing_locally localKeys) remote
  /\ objectsToSync false false remote localKeys `sublist_of` remote
  /\ forall o, o ∈ objectsToSync false false remote localKeys
       <-> o ∈ remote /\ exists k, Key o = Some k /\ k <> EmptyString /\ k ∉ localKeys.
Proof.
  rewrite objectsToSync_normal_filter. split; [reflexivity | split].
  - apply sublist_filter.
  - intros o. rewrite list_elem_of_filter. unfold missing_locally.
    destruct (Key o) as [k |].
    + split.
      * intros [[? ?] ?]. eauto.
      * intros [? (k' & [= <-] & ? & ?)]. auto.
    + split; [tauto | intros [_ (k' & ? & _)]; discriminate].
Qed.

(** The specification's example: remote [a, b, c], local [a]. *)
Example objectsToSync_abc :
  let o k := {| Key := Some k; Size := None; ETag := None |} in
  objectsToSync false false [o "a"; o "b"; o "c"] ["a"] = [o "b"; o "c"].
Proof. reflexivity. Qed.

(** Repeated remote keys are kept as often as they are listed. *)
Example objectsToSync_keeps_duplicates :
  let o k := {| Key := Some k; Size := None; ETag := None |} in
  objectsToSync false false [o "b"; o "a"; o "b"] ["a"] = [o "b"; o "b"].
Proof. reflexivity. Qed.

(** C4, as stated, fails: an object without a key is in the listing and not
    in the selection, also in force mode. *)
Lemma objectsToSync_force_drops_keyless :
  let keyless := {| Key := None; Size := Some 0%Z; ETag := None |} in
  forceSync ["my-bucket"; "--force"] = true
  /\ objectsToSync true false [keyless] [] = []
  /\ objectsToSync true false [keyless] [] <> [keyless].
Proof. repeat split; discriminate. Qed.

Lemma filter_has_key_all (remote : list _Object) :
  Forall has_key remote -> filter has_key remote = remote.
Proof.
  induction 1 as [| o l Ho _ IH]; [reflexivity |].
  by rewrite filter_cons_True, IH.
Qed.

(** C9. Once every key the first normal-mode run selected is among the local
    keys, next to the keys that were local before, a second normal-mode run
    over the same remote listing selects nothing. *)
Theorem objectsToSync_idempotent (remote : list _Object) (local1 local2 : list string) :
  (forall o k, o ∈ objectsToSync false false remote local1 -> Key o = Some k -> k ∈ local2) ->
  (forall k, k ∈ local1 -> k ∈ local2) ->
  objectsToSync false false remote local2 = [].
Proof.
  intros Hup Hkeep. rewrite objectsToSync_normal_filter.
  apply elem_of_nil_inv. intros o [Hmiss Ho]%list_elem_of_filter.
  unfold missing_locally in Hmiss. destruct (Key o) as [k |] eqn:Hk; [| done].
  destruct Hmiss as [Hne Hnot]. apply Hnot.
  destruct (decide (k ∈ local1)) as [Hin | Hnin]; [by apply Hkeep |].
  apply (Hup o k); [| done].
  rewrite objectsToSync_normal_filter. apply list_elem_of_filter. split; [| done].
  unfold missing_locally. by rewrite Hk.
Qed.

(** ** Invariants of runs

    A relation [R] between the world before and after, kept by every step,
    is kept by every function of the script; so is "the process has not
    exited" where nothing calls [process.exit]. *)

Section Invariant.
Variable e : Env.
Variable R : World -> World -> Prop.
Variable ok_event : event -> Prop.
Variable allow_exit : bool.
Hypothesis HR : stable R ok_event.
Hypothesis ok_exec : forall command args code, ok_event (EvExec command args code).

Local Abbreviation inv := (invariant e R allow_exit).

Lemma inv_ret {A} (a : A) : inv (ret a).
Proof. intros w. split; [apply (st_refl _ _ HR) | exact I]. Qed.

Lemma inv_throw {A} (x : exn) : inv (@throw A x).
Proof. intros w. split; [apply (st_refl _ _ HR) | exact I]. Qed.

Lemma inv_process_exit {A} (c : Z) : allow_exit = true -> inv (@process_exit A c).
Proof. intros H w. split; [apply (st_refl _ _ HR) | exact H]. Qed.

Lemma inv_bind {A B} (m : M A) (k : A -> M B) :
  inv m -> (forall a, inv (k a)) -> inv (bind m k).
Proof.
  intros Hm Hk w. unfold bind. specialize (Hm w).
  destruct (m e w) as [[a | x | c] w1]; simpl in *; [| tauto | tauto].
  destruct (Hk a w1) as [H1 Ho]. split; [| exact Ho].
  eapply (st_trans _ _ HR); [apply Hm | exact H1].
Qed.

Lemma inv_ask_bind {B} (k : Env -> M B) : inv (k e) -> inv (bind ask k).
Proof. intros Hk w. unfold bind, ask. apply Hk. Qed.

Lemma inv_get_world : inv get_world.
Proof. intros w. split; [apply (st_refl _ _ HR) | exact I]. Qed.

Lemma inv_now : inv now.
Proof. intros w. split; [apply (st_refl _ _ HR) | exact I]. Qed.

Lemma inv_existsSync p : inv (existsSync p).
Proof. intros w. split; [apply (st_refl _ _ HR) | exact I]. Qed.

Lemma inv_log msg c : inv (log msg c).
Proof. intros w. split; [apply (st_log _ _ HR) | exact I]. Qed.

Lemma inv_set_fs f : inv (set_fs f).
Proof. intros w. split; [apply (st_fs _ _ HR) | exact I]. Qed.

Lemma inv_set_pages ps : inv (set_pages ps).
Proof. intros w. split; [apply (st_pages _ _ HR) | exact I]. Qed.

Lemma inv_emit ev : ok_event ev -> inv (emit ev).
Proof. intros H w. split; [by apply (st_emit _ _ HR) | exact I]. Qed.

Lemma inv_try_catch {A} (body : M A) (handler : exn -> M A) :
  inv body -> (forall x, inv (handler x)) -> inv (try_catch body handler).
Proof.
  intros Hb Hh w. unfold try_catch. specialize (Hb w).
  destruct (body e w) as [[a | x | c] w1]; simpl in *; [tauto | | tauto].
  destruct (Hh x w1) as [H1 Ho]. split; [| exact Ho].
  eapply (st_trans _ _ HR); [apply Hb | exact H1].
Qed.

Lemma inv_try_finally {A} (body : M A) (fin : M unit) :
  inv body -> inv fin -> inv (try_finally body fin).
Proof.
  intros Hb Hf w. unfold try_finally. specialize (Hb w).
  destruct (body e w) as [[a | x | c] w1]; simpl in *; [| | tauto];
    destruct (Hf w1) as [H1 Ho];
    destruct (fin e w1) as [[[] | y | c] w2]; simpl in *;
    (split; [eapply (st_trans _ _ HR); [apply Hb | exact H1] | tauto]).
Qed.

Ltac inv_step :=
  match goal with
  | |- inv (bind ask _) => apply inv_ask_bind
  | |- inv (bind _ _) => apply inv_bind; [| intros ?]
  | |- inv (try_catch _ _) => apply inv_try_catch; [| intros ?]
  | |- inv (try_finally _ _) => apply inv_try_finally
  | |- inv (ret _) => apply inv_ret
  | |- inv (throw _) => apply inv_throw
  | |- inv get_world => apply inv_get_world
  | |- inv now => apply inv_now
  | |- inv (existsSync _) => apply inv_existsSync
  | |- inv (log _ _) => apply inv_log
  | |- inv (logSuccess _) => apply inv_log
  | |- inv (logError _) => apply inv_log
  | |- inv (logWarning _) => apply inv_log
  | |- inv (logInfo _) => apply inv_log
  | |- inv (logStep _) => apply inv_log
  | |- inv (set_fs _) => apply inv_set_fs
  | |- inv (set_pages _) => apply inv_set_pages
  | |- inv (emit _) =>
      apply inv_emit; first [apply (st_basic _ _ HR); exact I | apply ok_exec]
  | |- inv (if ?c then _ else _) => destruct c eqn:?
  | |- inv (match ?x with _ => _ end) => destruct x eqn:?
  end.

Lemma inv_mkdirSync p : inv (mkdirSync p).
Proof. unfold mkdirSync. repeat inv_step. Qed.

Lemma inv_rmSync p : inv (rmSync p).
Proof. unfold rmSync. repeat inv_step. Qed.

Lemma inv_writeFileSync p data : inv (writeFileSync p data).
Proof. unfold writeFileSync. repeat inv_step. Qed.

Lemma inv_unlinkSync p : inv (unlinkSync p).
Proof. unfold unlinkSync. repeat inv_step. Qed.

Lemma inv_createRemoteClient : inv createRemoteClient.
Proof. unfold createRemoteClient. repeat inv_step. Qed.

Lemma inv_execCommand command args : inv (execCommand command args).
Proof. unfold execCommand. repeat inv_step. Qed.

Lemma inv_ensureDirectoryExists dir : inv (ensureDirectoryExists dir).
Proof. unfold ensureDirectoryExists. repeat inv_step. apply inv_mkdirSync. Qed.

Lemma inv_cleanupDirectory dir : inv (cleanupDirectory dir).
Proof. unfold cleanupDirectory. repeat inv_step. apply inv_rmSync. Qed.

Lemma inv_streamToBuffer chunks err : inv (streamToBuffer chunks err).
Proof. unfold streamToBuffer. repeat inv_step. Qed.

Lemma inv_listRemoteObjects_loop pages bucketName objects token :
  inv (listRemoteObjects_loop pages bucketName objects token).
Proof.
  revert objects token. induction pages as [| answer rest IH]; intros objects token;
    cbn [listRemoteObjects_loop]; repeat inv_step; apply IH.
Qed.

Lemma inv_listRemoteObjects client bucketName : inv (listRemoteObjects client bucketName).
Proof. unfold listRemoteObjects. inv_step; [inv_step |]. apply inv_listRemoteObjects_loop. Qed.

Lemma inv_listLocalObjectsFromDatabase bucketName :
  inv (listLocalObjectsFromDatabase bucketName).
Proof. unfold listLocalObjectsFromDatabase. repeat inv_step. Qed.

Lemma inv_listLocalObjects bucketName :
  ok_event (EvListLocal bucketName) -> inv (listLocalObjects bucketName).
Proof.
  intros Hok. unfold listLocalObjects. apply inv_bind; [by apply inv_emit |].
  intros _. repeat inv_step. apply inv_listLocalObjectsFromDatabase.
Qed.

Lemma inv_downloadObject client bucketName key localPath :
  inv (downloadObject client bucketName key localPath).
Proof.
  unfold downloadObject. repeat inv_step;
    auto using inv_streamToBuffer, inv_ensureDirectoryExists, inv_writeFileSync.
Qed.

Lemma inv_uploadObjectToLocal bucketName key filePath :
  inv (uploadObjectToLocal bucketName key filePath).
Proof. unfold uploadObjectToLocal. repeat inv_step. apply inv_execCommand. Qed.

Lemma inv_cleanLocalBucket : inv cleanLocalBucket.
Proof. unfold cleanLocalBucket. repeat inv_step. apply inv_cleanupDirectory. Qed.

Lemma inv_syncObjects_loop client bucketName total objects processed :
  inv (syncObjects_loop client bucketName total objects processed).
Proof.
  revert processed. induction objects as [| object rest IH]; intros processed;
    cbn [syncObjects_loop]; repeat inv_step;
    auto using inv_downloadObject, inv_uploadObjectToLocal, inv_unlinkSync.
Qed.

Lemma inv_syncObjects client bucketName objects :
  inv (syncObjects client bucketName objects).
Proof. apply inv_syncObjects_loop. Qed.

Lemma inv_syncR2ToLocal_try :
  (cleanSync (argv e) = false -> forceSync (argv e) = false ->
   forall b, ok_event (EvListLocal b)) ->
  inv syncR2ToLocal_try.
Proof.
  intros Hlocal. unfold syncR2ToLocal_try.
  repeat inv_step;
    auto using inv_createRemoteClient, inv_ensureDirectoryExists,
      inv_cleanLocalBucket, inv_listRemoteObjects, inv_syncObjects.
  apply inv_listLocalObjects, Hlocal.
  - by destruct (cleanSync (argv e)).
  - destruct (cleanSync (argv e)), (forceSync (argv e)); done.
Qed.

Lemma inv_syncR2ToLocal_finally : inv syncR2ToLocal_finally.
Proof. unfold syncR2ToLocal_finally. repeat inv_step. apply inv_cleanupDirectory. Qed.

Lemma inv_syncR2ToLocal :
  (cleanSync (argv e) = false -> forceSync (argv e) = false ->
   forall b, ok_event (EvListLocal b)) ->
  inv syncR2ToLocal.
Proof.
  intros Hlocal. unfold syncR2ToLocal. repeat inv_step;
    auto using inv_syncR2ToLocal_try, inv_syncR2ToLocal_finally.
Qed.

Lemma inv_forEach {A} (l : list A) (f : A -> M unit) :
  (forall x, inv (f x)) -> inv (forEach l f).
Proof. intros Hf. induction l; cbn [forEach]; repeat inv_step; auto. Qed.

Lemma inv_checkEnvironmentVariables :
  allow_exit = true -> inv checkEnvironmentVariables.
Proof.
  intros Hx. unfold checkEnvironmentVariables. repeat inv_step.
  - apply inv_forEach. intros x. inv_step.
  - by apply inv_process_exit.
Qed.

Lemma inv_checkWranglerAvailable : allow_exit = true -> inv checkWranglerAvailable.
Proof.
  intros Hx. unfold checkWranglerAvailable. repeat inv_step.
  - apply inv_execCommand.
  - by apply inv_process_exit.
Qed.

End Invariant.

(** ** Force and clean mode *)

Lemma trace_grows_by_same P w w' : trace w' = trace w -> trace_grows_by P w w'.
Proof. intros H. exists []. by rewrite app_nil_r. Qed.

Lemma trace_grows_by_refl P w : trace_grows_by P w w.
Proof. by apply trace_grows_by_same. Qed.

Lemma trace_grows_by_trans P w1 w2 w3 :
  trace_grows_by P w1 w2 -> trace_grows_by P w2 w3 -> trace_grows_by P w1 w3.
Proof.
  intros (evs1 & H1 & F1) (evs2 & H2 & F2). exists (evs1 ++ evs2).
  split; [by rewrite H2, H1, app_assoc | by apply Forall_app].
Qed.

Lemma trace_grows_by_stable (P : event -> Prop) :
  (forall ev, basic_event ev -> P ev) -> stable (trace_grows_by P) P.
Proof.
  intros Hbasic. split.
  - apply trace_grows_by_refl.
  - apply trace_grows_by_trans.
  - intros w entry. by apply trace_grows_by_same.
  - intros w f. by apply trace_grows_by_same.
  - intros w ps. by apply trace_grows_by_same.
  - intros w ev Hev. exists [ev]. split; [reflexivity | by constructor].
  - exact Hbasic.
Qed.

Lemma syncR2ToLocal_skips_local_listing (e : Env) (w : World) :
  forceSync (argv e) || cleanSync (argv e) = true ->
  trace_grows_by not_local_listing w (syncR2ToLocal e w).2.
Proof.
  intros Hmode.
  refine (proj1 (inv_syncR2ToLocal e (trace_grows_by not_local_listing)
                   not_local_listing false _ _ _ w)).
  - apply trace_grows_by_stable. intros ev Hev b ->. exact Hev.
  - intros command args code b. discriminate.
  - intros Hc Hf. rewrite Hc, Hf in Hmode. discriminate.
Qed.

(** C4, amended. In force or clean mode the reconciler selects the remote
    objects whose key is defined and non-empty, in listing order, whatever
    the local keys are: the whole listing when every object has such a key.
    The run does not list the local objects. *)
Theorem force_or_clean_selects_all_keyed (e : Env) :
  forceSync (argv e) || cleanSync (argv e) = true ->
  (forall remote localKeys,
     objectsToSync (forceSync (argv e)) (cleanSync (argv e)) remote localKeys
     = filter has_key remote)
  /\ (forall remote localKeys, Forall has_key remote ->
        objectsToSync (forceSync (argv e)) (cleanSync (argv e)) remote localKeys
        = remote)
  /\ (forall w, exists evs,
        trace (syncR2ToLocal e w).2 = trace w ++ evs
        /\ forall b, EvListLocal b ∉ evs).
Proof.
  intros Hmode. split; [| split].
  - intros remote localKeys. by apply objectsToSync_all_filter.
  - intros remote localKeys Hall.
    rewrite objectsToSync_all_filter by done. by apply filter_has_key_all.
  - intros w. destruct (syncR2ToLocal_skips_local_listing e w Hmode) as (evs & Htr & Hall).
    exists evs. split; [exact Htr |]. intros b Hin.
    rewrite Forall_forall in Hall. by apply (Hall _ Hin b).
Qed.

(** ** Cleanup of the scratch directory *)

Lemma is_prefix_refl (p : list string) : is_prefix p p = true.
Proof. unfold is_prefix. apply bool_decide_eq_true. apply firstn_all. Qed.

Lemma without_tree_lookup p f q :
  is_prefix (resolve p) q = true -> without_tree p f !! q = None.
Proof.
  intros Hq. unfold without_tree. apply map_lookup_filter_None. right.
  intros x _. simpl. congruence.
Qed.

Lemma without_tree_gone p f :
  implicit_dir (resolve p) = false -> existsSync_at (without_tree p f) p = false.
Proof.
  intros Himp. unfold existsSync_at, node_at. rewrite Himp.
  by rewrite without_tree_lookup by apply is_prefix_refl.
Qed.

Lemma cleanupDirectory_result (dir : string) (e : Env) (w : World) :
  exists w', cleanupDirectory dir e w = (Ret tt, w')
    /\ fs w' = (if existsSync_at (fs w) dir then without_tree dir (fs w) else fs w).
Proof.
  unfold cleanupDirectory, bind, existsSync, rmSync, bind, get_world, emit, set_fs,
    logSuccess, log.
  destruct (existsSync_at (fs w) dir) eqn:Hex; simpl; eauto.
Qed.

Lemma syncR2ToLocal_finally_result (e : Env) (w : World) :
  exists w', syncR2ToLocal_finally e w = (Ret tt, w')
    /\ fs w' = (if existsSync_at (fs w) TEMP_DIR then without_tree TEMP_DIR (fs w)
                else fs w).
Proof.
  unfold syncR2ToLocal_finally, bind, logStep, log.
  match goal with |- context [cleanupDirectory TEMP_DIR e ?w1] =>
    destruct (cleanupDirectory_result TEMP_DIR e w1) as (w' & Hrun & Hfs) end.
  rewrite Hrun. eauto.
Qed.

(** Nothing in the [try] part ends the process. *)
Lemma syncR2ToLocal_try_no_exit (e : Env) (w : World) (c : Z) :
  (syncR2ToLocal_try e w).1 <> Exit c.
Proof.
  pose proof (proj2 (inv_syncR2ToLocal_try e (fun _ _ => True) (fun _ => True) false
    ltac:(by split) ltac:(done) ltac:(done) w)) as H.
  intros Heq. rewrite Heq in H. discriminate H.
Qed.

(** C5. However the [try] part of a sync run ends - it returns at the end,
    it returns early on an empty listing or an empty plan, or it throws -
    the run ends the same way after the [finally] block has removed the
    scratch directory with everything below it; the scratch directory does
    not exist afterwards. *)
Theorem syncR2ToLocal_removes_scratch (e : Env) (w : World) :
  exists o w1 w2,
    (log "Starting R2 sync to local Wrangler..." LBlue;; syncR2ToLocal_try) e w = (o, w1)
    /\ (forall c, o <> Exit c)
    /\ syncR2ToLocal e w = (o, w2)
    /\ fs w2 = (if existsSync_at (fs w1) TEMP_DIR then without_tree TEMP_DIR (fs w1)
                else fs w1)
    /\ existsSync_at (fs w2) TEMP_DIR = false.
Proof.
  unfold syncR2ToLocal, bind, try_finally, log.
  match goal with |- context [syncR2ToLocal_try e ?w0] => set (w0' := w0) end.
  pose proof (syncR2ToLocal_try_no_exit e w0') as Hno.
  destruct (syncR2ToLocal_try e w0') as [o w1].
  destruct (syncR2ToLocal_finally_result e w1) as (w2 & Hfin & Hfs).
  exists o, w1, w2. simpl in Hno.
  assert (Hgone : existsSync_at (fs w2) TEMP_DIR = false).
  { rewrite Hfs. destruct (existsSync_at (fs w1) TEMP_DIR) eqn:Hex; [| exact Hex].
    by apply without_tree_gone. }
  destruct o as [[] | x | c]; rewrite ?Hfin; try done.
  by destruct (Hno c).
Qed.

(** ** Local listing *)

Lemma fold_left_push {A} (l acc : list A) :
  fold_left (fun keys object => keys ++ [object]) l acc = acc ++ l.
Proof.
  revert acc. induction l as [| x l IH]; intros acc; simpl.
  - by rewrite app_nil_r.
  - by rewrite IH, <- app_assoc.
Qed.

(** C6. [listLocalObjects] never throws and leaves the file system alone.
    It returns no keys and logs a warning when the state directory or the
    database file is absent; it returns no keys and logs the error when
    opening or querying the database fails; otherwise it returns the keys
    of the rows. *)
Theorem listLocalObjects_never_throws (bucketName : string) (e : Env) (w : World) :
  let '(keys, entries, evs) :=
    local_listing_result (dbPath_of e bucketName) (local_listing_of bucketName e w) in
  listLocalObjects bucketName e w
  = (Ret keys,
     {| fs := fs w; console := console w ++ entries;
        trace := trace w ++ EvListLocal bucketName :: evs;
        s3_pages := s3_pages w |}).
Proof.
  unfold local_listing_of, listLocalObjects, listLocalObjectsFromDatabase.
  unfold bind, try_catch, emit, ask, existsSync, logWarning, logInfo, logError, log,
    now, throw, ret.
  cbn [fs trace console s3_pages].
  fold (dbPath_of e bucketName).
  generalize (dbPath_of e bucketName) (MINIFLARE_DIR (argv e)). intros dbPath dir.
  destruct (existsSync_at (fs w) dir); cbn; [| reflexivity].
  destruct (existsSync_at (fs w) dbPath); cbn; [| reflexivity].
  rewrite length_app, Nat.add_comm. cbn [length Nat.add].
  destruct (sqlite e (S (length (trace w))) dbPath) as [x | x | keys];
    cbn; rewrite <- ?app_assoc; try reflexivity.
  by rewrite fold_left_push.
Qed.

(** ** Transfer *)

(** The upload runs [wrangler r2 object put] once; it returns when the exit
    code is 0 and throws otherwise. *)
Lemma uploadObjectToLocal_result (bucketName key filePath : string) (e : Env) (w : World) :
  let '(code, stdout, stderr) :=
    spawn e (length (trace w)) "wrangler" (put_args bucketName key filePath) in
  let x := JsError ("Command failed with code " +:+ pretty code +:+ ": " +:+ stderr) in
  uploadObjectToLocal bucketName key filePath e w
  = (if (code =? 0)%Z then Ret tt else Throw x,
     {| fs := fs w;
        console := console w ++
          [if (code =? 0)%Z then (LSuccess, "Uploaded to local: " +:+ key)
           else (LError, "Failed to upload " +:+ key +:+ " to local: " +:+ errorMessage x)];
        trace := trace w ++ [EvExec "wrangler" (put_args bucketName key filePath) code];
        s3_pages := s3_pages w |}).
Proof.
  unfold uploadObjectToLocal, execCommand, try_catch, bind, ask, now, emit, logSuccess,
    logError, log, throw, ret.
  fold (put_args bucketName key filePath). cbn [trace].
  destruct (spawn e (length (trace w)) "wrangler" (put_args bucketName key filePath))
    as [[code stdout] stderr].
  destruct (code =? 0)%Z; reflexivity.
Qed.

Lemma bind_assoc_at {A B C} (m : M A) (k : A -> M B) (h : B -> M C) (e : Env) (w : World) :
  bind (bind m k) h e w = bind m (fun a => bind (k a) h) e w.
Proof. unfold bind. by destruct (m e w) as [[a | x | c] w']. Qed.

Lemma bind_ext_at {A B} (m : M A) (k1 k2 : A -> M B) (e : Env) (w : World) :
  (forall a w', k1 a e w' = k2 a e w') -> bind m k1 e w = bind m k2 e w.
Proof. intros H. unfold bind. destruct (m e w) as [[a | x | c] w']; auto. Qed.

(** The loop over [l1 ++ l2] is the loop over [l1], then over [l2]. *)
Lemma syncObjects_loop_app client bucketName total (l1 l2 : list _Object) processed e w :
  syncObjects_loop client bucketName total (l1 ++ l2) processed e w
  = bind (syncObjects_loop client bucketName total l1 processed)
      (fun _ => syncObjects_loop client bucketName total l2
                  (processed + length (transferred_keys l1))) e w.
Proof.
  revert processed w. induction l1 as [| o rest IH]; intros processed w.
  - cbn. by rewrite Nat.add_0_r.
  - cbn [app syncObjects_loop transferred_keys omap list_omap].
    destruct (truthy (Key o)) eqn:Hkey; cbn [negb].
    + apply truthy_interpolate in Hkey as [-> _]. cbn [length].
      rewrite Nat.add_succ_r, <- Nat.add_succ_l.
      repeat (rewrite bind_assoc_at; apply bind_ext_at; intros ? ?).
      apply IH.
    + apply IH.
Qed.

Lemma same_puts_stable : stable same_puts no_put.
Proof.
  unfold same_puts. split; try done.
  - intros w1 w2 w3 H12 H23. by rewrite H23.
  - intros w ev Hev. cbn [trace]. unfold successful_puts.
    rewrite omap_app. cbn. unfold no_put in Hev. rewrite Hev. apply app_nil_r.
  - by intros [].
Qed.

Lemma successful_puts_snoc (tr : list event) (bucketName key filePath : string) (code : Z) :
  successful_puts (tr ++ [EvExec "wrangler" (put_args bucketName key filePath) code])
  = successful_puts tr
    ++ (if (code =? 0)%Z then [bucketName +:+ "/" +:+ key] else []).
Proof.
  unfold successful_puts. rewrite omap_app. f_equal. cbn.
  destruct (Z.eqb_spec code 0) as [-> | Hne].
  - by rewrite decide_True.
  - rewrite decide_False; [done | tauto].
Qed.

(** A run of the loop that returns has uploaded every keyed object, in
    order. *)
Lemma syncObjects_loop_puts client bucketName total (objects : list _Object)
    processed e w w' :
  syncObjects_loop client bucketName total objects processed e w = (Ret tt, w') ->
  successful_puts (trace w')
  = successful_puts (trace w)
    ++ map (fun k => bucketName +:+ "/" +:+ k) (transferred_keys objects).
Proof.
  revert processed w. induction objects as [| o rest IH]; intros processed w.
  - cbn. intros [= <-]. by rewrite app_nil_r.
  - cbn [syncObjects_loop transferred_keys omap list_omap].
    destruct (truthy (Key o)) eqn:Hkey; cbn [negb]; [| apply IH].
    apply truthy_interpolate in Hkey as [Hkey _]. rewrite Hkey at 2. cbn [interpolate map].
    set (key := interpolate (Key o)). set (tmp := path.join [TEMP_DIR; key]).
    unfold bind at 1. cbn [logStep log].
    match goal with |- context [bind _ _ e ?w0] => set (wa := w0) end.
    unfold bind at 1.
    pose proof (proj1 (inv_downloadObject e same_puts no_put false same_puts_stable
                         {| endpoint := EmptyString; accessKeyId := EmptyString; secretAccessKey := EmptyString |}
                         bucketName key tmp wa)) as Hd.
    assert (Hcl : forall c1 c2, downloadObject c1 bucketName key tmp
                                = downloadObject c2 bucketName key tmp) by reflexivity.
    rewrite (Hcl client {| endpoint := EmptyString; accessKeyId := EmptyString; secretAccessKey := EmptyString |}).
    destruct (downloadObject _ bucketName key tmp e wa) as [[[] | x | c] wb];
      [| discriminate | discriminate].
    cbn [snd] in Hd. unfold bind at 1.
    pose proof (uploadObjectToLocal_result bucketName key tmp e wb) as Hu.
    destruct (spawn e (length (trace wb)) "wrangler" (put_args bucketName key tmp))
      as [[code stdout] stderr].
    rewrite Hu. clear Hu.
    destruct (Z.eqb_spec code 0) as [-> | Hne]; [| discriminate].
    match goal with |- context [bind _ _ e ?w0] => set (wc := w0) end.
    unfold bind at 1. cbn [existsSync].
    assert (Hc : successful_puts (trace wc)
                 = successful_puts (trace w) ++ [bucketName +:+ "/" +:+ key]).
    { subst wc. cbn [trace]. rewrite successful_puts_snoc. cbn.
      by rewrite Hd. }
    unfold bind at 1.
    assert (Hx : same_puts wc
              ((if existsSync_at (fs wc) tmp then unlinkSync tmp else ret tt) e wc).2).
    { destruct (existsSync_at (fs wc) tmp).
      - apply (inv_unlinkSync e same_puts no_put false same_puts_stable).
      - reflexivity. }
    destruct ((if existsSync_at (fs wc) tmp then unlinkSync tmp else ret tt) e wc)
      as [[[] | x | c] wd]; [| discriminate | discriminate].
    cbn [snd] in Hx. intros Hrest. apply IH in Hrest.
    rewrite Hrest, Hx, Hc, <- app_assoc. reflexivity.
Qed.

(** C7. Let the upload of the object at some position of the plan fail,
    after the objects before it went through and its own download
    succeeded.  Then [syncObjects] throws the upload's error, and the world
    it leaves is the one the failed upload left: nothing is done for the
    objects after that position and nothing is taken back, so the successful
    uploads are those of the objects before it. *)
Theorem syncObjects_stops_at_failed_upload (client : S3Client) (bucketName key : string)
    (pre post : list _Object) (o : _Object) (e : Env) (w w1 w2 w3 : World) (x : exn) :
  let plan := pre ++ o :: post in
  let tempFilePath := path.join [TEMP_DIR; key] in
  Key o = Some key -> key <> EmptyString ->
  syncObjects_loop client bucketName (length plan) pre 0 e w = (Ret tt, w1) ->
  (logStep ("[" +:+ pretty (S (length (transferred_keys pre))) +:+ "/"
            +:+ pretty (length plan) +:+ "] Processing: " +:+ key);;
   downloadObject client bucketName key tempFilePath) e w1 = (Ret tt, w2) ->
  uploadObjectToLocal bucketName key tempFilePath e w2 = (Throw x, w3) ->
  syncObjects client bucketName plan e w = (Throw x, w3)
  /\ (exists code, code <> 0%Z
        /\ trace w3 = trace w2
             ++ [EvExec "wrangler" (put_args bucketName key tempFilePath) code])
  /\ fs w3 = fs w2
  /\ successful_puts (trace w3)
     = successful_puts (trace w)
       ++ map (fun k => bucketName +:+ "/" +:+ k) (transferred_keys pre).
Proof.
  intros plan tempFilePath Hkey Hne Hpre Hdown Hup.
  assert (Htruthy : truthy (Key o) = true) by (rewrite Hkey; by apply truthy_Some).
  split; [| split; [| split]].
  - unfold syncObjects. subst plan. rewrite syncObjects_loop_app.
    unfold bind at 1. rewrite Hpre. cbn [syncObjects_loop Nat.add].
    rewrite Htruthy, Hkey. cbn [negb interpolate].
    rewrite <- bind_assoc_at. unfold bind at 1.
    fold tempFilePath. rewrite Hdown.
    unfold bind at 1. by rewrite Hup.
  - pose proof (uploadObjectToLocal_result bucketName key tempFilePath e w2) as Hu.
    destruct (spawn e (length (trace w2)) "wrangler"
                (put_args bucketName key tempFilePath)) as [[code stdout] stderr].
    rewrite Hup in Hu. exists code.
    destruct (Z.eqb_spec code 0) as [-> | Hcode]; [discriminate |].
    split; [exact Hcode |]. by injection Hu as _ ->.
  - pose proof (uploadObjectToLocal_result bucketName key tempFilePath e w2) as Hu.
    destruct (spawn e (length (trace w2)) "wrangler"
                (put_args bucketName key tempFilePath)) as [[code stdout] stderr].
    rewrite Hup in Hu. by injection Hu as _ ->.
  - pose proof (uploadObjectToLocal_result bucketName key tempFilePath e w2) as Hu.
    destruct (spawn e (length (trace w2)) "wrangler"
                (put_args bucketName key tempFilePath)) as [[code stdout] stderr].
    rewrite Hup in Hu.
    destruct (Z.eqb_spec code 0) as [-> | Hcode]; [discriminate |].
    injection Hu as _ ->. cbn [trace]. rewrite successful_puts_snoc.
    destruct (Z.eqb_spec code 0); [done |]. rewrite app_nil_r.
    rewrite <- (syncObjects_loop_puts _ _ _ _ _ _ _ _ Hpre).
    unfold bind in Hdown. cbn [logStep log] in Hdown.
    match type of Hdown with context [downloadObject _ _ _ _ e ?w0] =>
      pose proof (proj1 (inv_downloadObject e same_puts no_put false same_puts_stable
                           client bucketName key tempFilePath w0)) as Hd
    end.
    destruct (downloadObject client bucketName key tempFilePath e _) as [[[] | y | c] wb];
      [| discriminate | discriminate].
    injection Hdown as <-. exact Hd.
Qed.

(** ** Exit status *)

Lemma checkEnvironmentVariables_result (e : Env) (w : World) :
  if credentials_missing e
  then exists w', checkEnvironmentVariables e w = (Exit 1, w')
  else checkEnvironmentVariables e w = (Ret tt, w).
Proof.
  unfold checkEnvironmentVariables, credentials_missing, bind, ask.
  cbn [List.filter].
  destruct (truthy (process_env e !! "CLOUDFLARE_ACCOUNT_ID"));
    destruct (truthy (process_env e !! "CLOUDFLARE_ACCESS_KEY_ID"));
    destruct (truthy (process_env e !! "CLOUDFLARE_SECRET_ACCESS_KEY"));
    cbn; eauto.
Qed.

Lemma checkWranglerAvailable_result (e : Env) (w : World) :
  if (wrangler_version_code e (trace w) =? 0)%Z
  then checkWranglerAvailable e w
       = (Ret tt,
          {| fs := fs w;
             console := console w ++ [(LSuccess, "Wrangler CLI is available")];
             trace := trace w ++ [EvExec "npx" ["wrangler"; "--version"] 0];
             s3_pages := s3_pages w |})
  else exists w', checkWranglerAvailable e w = (Exit 1, w').
Proof.
  unfold checkWranglerAvailable, wrangler_version_code, execCommand, try_catch, bind,
    ask, now, emit, logSuccess, logError, log, throw, ret, process_exit.
  destruct (spawn e (length (trace w)) "npx" ["wrangler"; "--version"])
    as [[code stdout] stderr].
  cbn [fst]. destruct (Z.eqb_spec code 0) as [-> | Hne]; cbn; eauto.
Qed.

Lemma syncR2ToLocal_no_exit (e : Env) (w : World) (c : Z) :
  (syncR2ToLocal e w).1 <> Exit c.
Proof.
  pose proof (proj2 (inv_syncR2ToLocal e (fun _ _ => True) (fun _ => True) false
    ltac:(by split) ltac:(done) ltac:(done) w)) as H.
  intros Heq. rewrite Heq in H. discriminate H.
Qed.

(** C8. The process ends with status 0 when help is asked for, when no
    bucket name is given, and when the sync returns; with status 1 when a
    credential variable is missing, when [wrangler] is not available, and
    when the sync throws. *)
Theorem main_exit_status (e : Env) (w : World) :
  exit_status (main e w) = expected_status e w.
Proof.
  unfold main, expected_status, try_catch.
  unfold bind at 1. unfold ask at 1.
  destruct (includes (argv e) "--help" || includes (argv e) "-h"); [reflexivity |].
  destruct (truthy (BUCKET_NAME (argv e))); cbn [negb]; [| reflexivity].
  unfold bind at 1. cbn [logInfo log]. unfold bind at 1. cbn [logInfo log].
  unfold bind at 1.
  assert (Hmode : forall w0,
    (if cleanSync (argv e)
     then logInfo "Clean mode enabled - will delete all local objects first"
     else if forceSync (argv e)
          then logInfo "Force mode enabled - will overwrite all objects"
          else logInfo "Normal mode - will sync only missing objects") e w0
    = (Ret tt, {| fs := fs w0; console := console w0 ++ [(LInfo, mode_line (argv e))];
                  trace := trace w0; s3_pages := s3_pages w0 |})).
  { intros w0. unfold mode_line.
    destruct (cleanSync (argv e)); [reflexivity |].
    destruct (forceSync (argv e)); reflexivity. }
  rewrite Hmode. cbn [fs console trace s3_pages]. unfold bind at 1.
  match goal with |- context [checkEnvironmentVariables e ?w0] =>
    pose proof (checkEnvironmentVariables_result e w0) as Henv end.
  destruct (credentials_missing e).
  { destruct Henv as (w' & ->). reflexivity. }
  rewrite Henv. clear Henv. unfold bind at 1. cbn [logInfo log fs console trace s3_pages].
  unfold bind at 1.
  match goal with |- context [checkWranglerAvailable e ?w0] =>
    pose proof (checkWranglerAvailable_result e w0) as Hwr end.
  cbn [trace] in Hwr.
  destruct (wrangler_version_code e (trace w) =? 0)%Z; cbn [negb].
  2:{ destruct Hwr as (w' & ->). reflexivity. }
  rewrite Hwr. clear Hwr. unfold bind at 1. cbn [logInfo log fs console trace s3_pages].
  rewrite <- !app_assoc. cbn [app]. fold (after_checks e w).
  pose proof (syncR2ToLocal_no_exit e (after_checks e w)) as Hno.
  destruct (syncR2ToLocal e (after_checks e w)) as [[[] | x | c] w']; try reflexivity.
  by destruct (Hno c).
Qed.

(** ** The bucket name *)

Lemma main_help (e : Env) (w : World) :
  help_requested (argv e) = true -> main e w = (Ret tt, with_console w [(LRaw, usage)]).
Proof.
  unfold help_requested. intros H. unfold main, try_catch, bind, ask. by rewrite H.
Qed.

Lemma main_bucket_required (e : Env) (w : World) :
  help_requested (argv e) = false -> truthy (BUCKET_NAME (argv e)) = false ->
  main e w = bucket_required_exit w.
Proof.
  unfold help_requested. intros Hh Hb. unfold main, try_catch, bind, ask.
  rewrite Hh, Hb. cbn. unfold bucket_required_exit, with_console. cbn.
  by rewrite <- app_assoc.
Qed.

Lemma main_proceeds (e : Env) (w : World) :
  help_requested (argv e) = false -> truthy (BUCKET_NAME (argv e)) = true ->
  main e w
  = try_catch main_proceed main_handler e
      (with_console w
         [(LInfo, "Using wrangler directory: " +:+ wranglerDir (argv e));
          (LInfo, "Using bucket name: " +:+ interpolate (BUCKET_NAME (argv e)))]).
Proof.
  unfold help_requested. intros Hh Hb. unfold main, main_proceed, main_handler, try_catch.
  unfold bind at 1. unfold ask at 1. rewrite Hh, Hb. cbn [negb].
  unfold bind at 1. cbn [logInfo log]. unfold bind at 1. cbn [logInfo log].
  unfold bind at 12. unfold ask at 1.
  unfold with_console. cbn [fs console trace s3_pages].
  rewrite <- app_assoc. reflexivity.
Qed.

Lemma console_grows_stable : stable console_grows (fun _ => True).
Proof.
  unfold console_grows. split; try done.
  - intros w. exists []. by rewrite app_nil_r.
  - intros w1 w2 w3 [l1 H1] [l2 H2]. exists (l1 ++ l2). by rewrite H2, H1, app_assoc.
  - intros w entry. by exists [entry].
  - intros w f. exists []. cbn. by rewrite app_nil_r.
  - intros w ps. exists []. cbn. by rewrite app_nil_r.
  - intros w ev _. exists []. cbn. by rewrite app_nil_r.
Qed.

Lemma main_proceed_console (e : Env) (w : World) :
  console_grows w (try_catch main_proceed main_handler e w).2.
Proof.
  assert (Hstable := console_grows_stable).
  refine (proj1 (inv_try_catch e _ _ true Hstable _ _ _ _ w)).
  - unfold main_proceed. apply inv_ask_bind.
    apply (inv_bind e _ _ true Hstable); [| intros _].
    { destruct (cleanSync (argv e)); [| destruct (forceSync (argv e))];
        by apply (inv_log e _ _ true Hstable). }
    apply (inv_bind e _ _ true Hstable); [| intros _].
    { by apply (inv_checkEnvironmentVariables e _ _ true Hstable). }
    apply (inv_bind e _ _ true Hstable); [| intros _].
    { by apply (inv_log e _ _ true Hstable). }
    apply (inv_bind e _ _ true Hstable); [| intros _].
    { by apply (inv_checkWranglerAvailable e _ _ true Hstable). }
    apply (inv_bind e _ _ true Hstable); [| intros _].
    { by apply (inv_log e _ _ true Hstable). }
    by apply (inv_syncR2ToLocal e _ _ true Hstable).
  - intros x. unfold main_handler.
    apply (inv_bind e _ _ true Hstable); [| intros _].
    + by apply (inv_log e _ _ true Hstable).
    + by apply (inv_process_exit e _ _ true Hstable).
Qed.

Lemma truthy_head (args : list string) :
  truthy (head args) = false <-> args = [] \/ head args = Some EmptyString.
Proof.
  destruct args as [| b rest]; cbn.
  - split; auto.
  - destruct (String.eqb_spec b EmptyString) as [-> | Hne]; cbn.
    + split; auto.
    + split; [discriminate | intros [? | [= ?]]; congruence].
Qed.

(** C10, amended. The bucket name is the first argument, whatever it is.
    When no help flag is among the arguments: a non-empty first argument,
    an option flag such as [--force] included, is logged and used as the
    bucket name, and [main] goes on to the checks and the sync; the
    missing-bucket-name exit is taken exactly when there is no argument or
    the first argument is the empty string. *)
Theorem bucket_name_is_first_argument :
  (forall args, BUCKET_NAME args = head args)
  /\ forall (e : Env) (w : World),
       help_requested (argv e) = false ->
       (forall b, head (argv e) = Some b -> b <> EmptyString ->
          interpolate (BUCKET_NAME (argv e)) = b
          /\ main e w
             = try_catch main_proceed main_handler e
                 (with_console w
                    [(LInfo, "Using wrangler directory: " +:+ wranglerDir (argv e));
                     (LInfo, "Using bucket name: " +:+ b)]))
       /\ (main e w = bucket_required_exit w
           <-> argv e = [] \/ head (argv e) = Some EmptyString).
Proof.
  split; [reflexivity |]. intros e w Hhelp. split.
  - intros b Hb Hne.
    assert (Hname : interpolate (BUCKET_NAME (argv e)) = b)
      by (unfold BUCKET_NAME; by rewrite Hb).
    split; [exact Hname |]. rewrite <- Hname. apply main_proceeds; [exact Hhelp |].
    unfold BUCKET_NAME. rewrite Hb. by apply truthy_Some.
  - rewrite <- truthy_head. fold (BUCKET_NAME (argv e)). split.
    + intros Hexit. destruct (truthy (BUCKET_NAME (argv e))) eqn:Hb; [| reflexivity].
      rewrite (main_proceeds e w Hhelp Hb) in Hexit.
      match type of Hexit with try_catch _ _ _ ?w0 = _ =>
        destruct (main_proceed_console e w0) as [entries Hentries] end.
      rewrite Hexit in Hentries. unfold bucket_required_exit, with_console in Hentries.
      cbn [snd console] in Hentries. rewrite <- app_assoc in Hentries.
      apply app_inv_head in Hentries. discriminate Hentries.
    + intros Hb. by apply main_bucket_required.
Qed.

(** ** Clean mode *)


(** With the default wrangler directory, the tree that clean mode removes is
    the one the local listing reads from. *)
Example default_wrangler_dir_is_cleaned :
  resolve (MINIFLARE_DIR ["my-bucket"; "--clean"])
  = resolve ".wrangler/state/v3/r2" ++ [MINIFLARE_KEY].
Proof. reflexivity. Qed.

(** C2, on the code: with [--wrangler-dir=../other/.wrangler], clean mode
    removes [.wrangler/state/v3/r2] of the working directory before the
    remote listing, and the state tree under the configured wrangler
    directory, the one the local listing reads from, is still there after
    the run. *)
Theorem clean_mode_ignores_wrangler_dir :
  let e := Sample.env ["my-bucket"; "--clean"; "--wrangler-dir=../other/.wrangler"] EmptyString [] in
  let w := Sample.world Sample.two_trees [Sample.object "a"] in
  let stateTree := path.join [wranglerDir (argv e); "state"; "v3"; "r2"] in
  stateTree = "../other/.wrangler/state/v3/r2"
  /\ MINIFLARE_DIR (argv e) = "../other/.wrangler/state/v3/r2/miniflare-R2BucketObject"
  /\ firstn 3 (trace (syncR2ToLocal e w).2)
     = [EvMkdir "./temp-r2-sync"; EvRm ".wrangler/state/v3/r2";
        EvListRemote "my-bucket" None]
  /\ existsSync_at (fs w) ".wrangler/state/v3/r2" = true
  /\ existsSync_at (fs (syncR2ToLocal e w).2) ".wrangler/state/v3/r2" = false
  /\ existsSync_at (fs w) stateTree = true
  /\ existsSync_at (fs (syncR2ToLocal e w).2) stateTree = true
  /\ existsSync_at (fs (syncR2ToLocal e w).2) (MINIFLARE_DIR (argv e)) = true.
Proof. vm_compute. repeat split. Qed.

(** ** Instances *)

Lemma force_or_clean_selects_all_keyed_witness :
  let e := Sample.env ["my-bucket"; "--force"] EmptyString ["a"] in
  (forall remote localKeys,
     objectsToSync (forceSync (argv e)) (cleanSync (argv e)) remote localKeys
     = filter has_key remote)
  /\ (forall remote localKeys, Forall has_key remote ->
        objectsToSync (forceSync (argv e)) (cleanSync (argv e)) remote localKeys
        = remote)
  /\ (forall w, exists evs,
        trace (syncR2ToLocal e w).2 = trace w ++ evs
        /\ forall b, EvListLocal b ∉ evs).
Proof.
  intros e. apply (force_or_clean_selects_all_keyed e). reflexivity.
Defined.

Lemma objectsToSync_idempotent_witness :
  objectsToSync false false
    [Sample.object "a"; Sample.object "b"; Sample.object "c"] ["a"; "b"; "c"] = [].
Proof.
  apply (objectsToSync_idempotent
           [Sample.object "a"; Sample.object "b"; Sample.object "c"] ["a"]).
  - intros o k Ho Hk. cbn in Ho.
    apply elem_of_cons in Ho as [Ho | Ho];
      [subst o; cbn in Hk; inversion Hk; set_solver |].
    apply elem_of_cons in Ho as [Ho | Ho];
      [subst o; cbn in Hk; inversion Hk; set_solver |].
    by apply elem_of_nil in Ho.
  - intros k Hk. apply elem_of_cons in Hk as [Hk | Hk]; [subst k; left |].
    by apply elem_of_nil in Hk.
Defined.

Lemma syncObjects_stops_at_failed_upload_witness :
  let e := Sample.env ["my-bucket"] "my-bucket/b" [] in
  let w := Sample.world ∅ [] in
  let plan := [Sample.object "a"; Sample.object "b"; Sample.object "c"] in
  let w1 := (syncObjects_loop Sample.client "my-bucket" 3 [Sample.object "a"] 0 e w).2 in
  let w2 := ((logStep "[2/3] Processing: b";;
              downloadObject Sample.client "my-bucket" "b" "temp-r2-sync/b") e w1).2 in
  let w3 := (uploadObjectToLocal "my-bucket" "b" "temp-r2-sync/b" e w2).2 in
  syncObjects Sample.client "my-bucket" plan e w
  = (Throw (JsError "Command failed with code 1: rejected"), w3)
  /\ successful_puts (trace w3) = ["my-bucket/a"].
Proof.
  intros e w plan w1 w2 w3.
  destruct (syncObjects_stops_at_failed_upload Sample.client "my-bucket" "b"
              [Sample.object "a"] [Sample.object "c"] (Sample.object "b") e w w1 w2 w3
              (JsError "Command failed with code 1: rejected"))
    as (Hrun & _ & _ & Hputs).
  - reflexivity.
  - discriminate.
  - vm_compute. reflexivity.
  - vm_compute. reflexivity.
  - vm_compute. reflexivity.
  - split; [exact Hrun | exact Hputs].
Defined.

(** C10, as stated, fails twice: an empty first argument takes the
    missing-bucket-name exit although arguments are given, and with
    [--force --help] the first argument is an option flag other than the
    help flags, yet the run does not proceed with it. *)
Lemma bucket_required_exit_with_arguments :
  let w := Sample.world ∅ [] in
  let e1 := Sample.env [EmptyString; "--force"] EmptyString [] in
  let e2 := Sample.env ["--force"; "--help"] EmptyString [] in
  (argv e1 <> [] /\ main e1 w = bucket_required_exit w)
  /\ (BUCKET_NAME (argv e2) = Some "--force"
      /\ main e2 w = (Ret tt, with_console w [(LRaw, usage)])).
Proof.
  intros w e1 e2. split; split.
  - discriminate.
  - by apply main_bucket_required.
  - reflexivity.
  - by apply main_help.
Qed.

Lemma bucket_name_is_first_argument_witness :
  let e := Sample.env ["--force"] EmptyString [] in
  let w := Sample.world ∅ [] in
  interpolate (BUCKET_NAME (argv e)) = "--force"
  /\ main e w
     = try_catch main_proceed main_handler e
         (with_console w
            [(LInfo, "Using wrangler directory: ./.wrangler");
             (LInfo, "Using bucket name: --force")]).
Proof.
  intros e w.
  destruct bucket_name_is_first_argument as [_ H].
  destruct (H e w) as [Hrun _]; [reflexivity |].
  apply (Hrun "--force"); [reflexivity | discriminate].
Defined.

(** * Further properties *)

(** ** Remote listing *)

Lemma truthy_token_request (token : option string) :
  truthy token = true -> (if truthy token then token else None) = token.
Proof. by intros ->. Qed.

Lemma listRemoteObjects_loop_collects (bucketName : string)
    (full : list ListObjectsV2CommandOutput) (last : ListObjectsV2CommandOutput)
    (rest : list (exn + ListObjectsV2CommandOutput)) (objects : list _Object)
    (token : option string) (e : Env) (w : World) :
  Forall (fun r => truthy (NextContinuationToken r) = true) full ->
  truthy (NextContinuationToken last) = false ->
  listRemoteObjects_loop (map inr full ++ inr last :: rest) bucketName objects token e w
  = (Ret (objects ++ flat_map contents_of (full ++ [last])),
     {| fs := fs w; console := console w;
        trace := trace w
          ++ EvListRemote bucketName (if truthy token then token else None)
             :: map (fun r => EvListRemote bucketName (NextContinuationToken r)) full;
        s3_pages := rest |}).
Proof.
  intros Hfull Hlast. revert objects token w.
  induction Hfull as [| r full Hr _ IH]; intros objects token w.
  - cbn [map app listRemoteObjects_loop flat_map].
    unfold bind, emit, set_pages, ret. cbn [fs console trace s3_pages].
    rewrite Hlast. unfold contents_of. rewrite app_nil_r.
    destruct (Contents last); rewrite ?app_nil_r; reflexivity.
  - cbn [map app listRemoteObjects_loop flat_map].
    unfold bind at 1 2. unfold emit, set_pages. cbn [fs console trace s3_pages].
    rewrite Hr. rewrite IH. cbn [fs console trace s3_pages].
    rewrite Hr. rewrite <- !app_assoc. cbn [app]. unfold contents_of at 2.
    destruct (Contents r); rewrite ?app_nil_r, <- ?app_assoc; reflexivity.
Qed.

Lemma listRemoteObjects_pages (client : S3Client) (bucketName : string)
    (full : list ListObjectsV2CommandOutput) (last : ListObjectsV2CommandOutput)
    (rest : list (exn + ListObjectsV2CommandOutput)) (e : Env) (w : World) :
  s3_pages w = map inr full ++ inr last :: rest ->
  Forall (fun r => truthy (NextContinuationToken r) = true) full ->
  truthy (NextContinuationToken last) = false ->
  listRemoteObjects client bucketName e w
  = (Ret (flat_map contents_of (full ++ [last])),
     {| fs := fs w; console := console w;
        trace := trace w ++ list_requests bucketName full;
        s3_pages := rest |}).
Proof.
  intros Hpages Hfull Hlast. unfold listRemoteObjects, bind, get_world.
  rewrite Hpages.
  by rewrite (listRemoteObjects_loop_collects bucketName full last rest [] None e w).
Qed.

(** X1. Pagination is followed to the end: when the store answers with
    pages that each carry a continuation token and then with one that
    carries none, [listRemoteObjects] returns the objects of all these pages
    in order, sends the first request without a token and each further one
    with the token of the page before, and leaves the later answers
    unread. *)
Theorem listRemoteObjects_collects_pages (client : S3Client) (bucketName : string)
    (full : list ListObjectsV2CommandOutput) (last : ListObjectsV2CommandOutput)
    (rest : list (exn + ListObjectsV2CommandOutput)) (e : Env) (w : World) :
  s3_pages w = map inr full ++ inr last :: rest ->
  Forall (fun r => truthy (NextContinuationToken r) = true) full ->
  truthy (NextContinuationToken last) = false ->
  listRemoteObjects client bucketName e w
  = (Ret (flat_map contents_of (full ++ [last])),
     {| fs := fs w; console := console w;
        trace := trace w ++ list_requests bucketName full;
        s3_pages := rest |}).
Proof. apply listRemoteObjects_pages. Qed.

Lemma listRemoteObjects_collects_pages_witness :
  let page1 := {| Contents := Some [Sample.object "a"; Sample.object "b"];
                  NextContinuationToken := Some "t1" |} in
  let page2 := {| Contents := Some [Sample.object "c"]; NextContinuationToken := None |} in
  let e := Sample.env ["my-bucket"] EmptyString [] in
  let w := {| fs := ∅; console := []; trace := [];
              s3_pages := [inr page1; inr page2] |} in
  listRemoteObjects Sample.client "my-bucket" e w
  = (Ret [Sample.object "a"; Sample.object "b"; Sample.object "c"],
     {| fs := ∅; console := [];
        trace := [EvListRemote "my-bucket" None; EvListRemote "my-bucket" (Some "t1")];
        s3_pages := [] |}).
Proof.
  intros page1 page2 e w.
  apply (listRemoteObjects_collects_pages Sample.client "my-bucket" [page1] page2 [] e w).
  - reflexivity.
  - repeat constructor.
  - reflexivity.
Defined.

Lemma listRemoteObjects_loop_fails (bucketName : string)
    (full : list ListObjectsV2CommandOutput) (error : exn)
    (rest : list (exn + ListObjectsV2CommandOutput)) (objects : list _Object)
    (token : option string) (e : Env) (w : World) :
  Forall (fun r => truthy (NextContinuationToken r) = true) full ->
  listRemoteObjects_loop (map inr full ++ inl error :: rest) bucketName objects token e w
  = (Throw error,
     {| fs := fs w;
        console := console w
          ++ [(LError, "Failed to list remote objects: " +:+ errorMessage error)];
        trace := trace w
          ++ EvListRemote bucketName (if truthy token then token else None)
             :: map (fun r => EvListRemote bucketName (NextContinuationToken r)) full;
        s3_pages := rest |}).
Proof.
  intros Hfull. revert objects token w.
  induction Hfull as [| r full Hr _ IH]; intros objects token w.
  - reflexivity.
  - cbn [map app listRemoteObjects_loop].
    unfold bind at 1 2. unfold emit, set_pages. cbn [fs console trace s3_pages].
    rewrite Hr. rewrite IH. cbn [fs console trace s3_pages].
    rewrite Hr. rewrite <- !app_assoc. reflexivity.
Qed.

(** X2. A failed list request fails the whole listing: when a request
    fails after any number of pages, [listRemoteObjects] logs the error and
    throws it; the objects of the pages read so far are not returned. *)
Theorem listRemoteObjects_fails_whole (client : S3Client) (bucketName : string)
    (full : list ListObjectsV2CommandOutput) (error : exn)
    (rest : list (exn + ListObjectsV2CommandOutput)) (e : Env) (w : World) :
  s3_pages w = map inr full ++ inl error :: rest ->
  Forall (fun r => truthy (NextContinuationToken r) = true) full ->
  listRemoteObjects client bucketName e w
  = (Throw error,
     {| fs := fs w;
        console := console w
          ++ [(LError, "Failed to list remote objects: " +:+ errorMessage error)];
        trace := trace w ++ list_requests bucketName full;
        s3_pages := rest |}).
Proof.
  intros Hpages Hfull. unfold listRemoteObjects, bind, get_world.
  rewrite Hpages.
  by rewrite (listRemoteObjects_loop_fails bucketName full error rest [] None e w).
Qed.

Lemma listRemoteObjects_fails_whole_witness :
  let page1 := {| Contents := Some [Sample.object "a"; Sample.object "b"];
                  NextContinuationToken := Some "t1" |} in
  let e := Sample.env ["my-bucket"] EmptyString [] in
  let w := {| fs := ∅; console := []; trace := [];
              s3_pages := [inr page1; inl (JsError "timeout")] |} in
  listRemoteObjects Sample.client "my-bucket" e w
  = (Throw (JsError "timeout"),
     {| fs := ∅; console := [(LError, "Failed to list remote objects: timeout")];
        trace := [EvListRemote "my-bucket" None; EvListRemote "my-bucket" (Some "t1")];
        s3_pages := [] |}).
Proof.
  intros page1 e w.
  apply (listRemoteObjects_fails_whole Sample.client "my-bucket" [page1]
           (JsError "timeout") [] e w).
  - reflexivity.
  - repeat constructor.
Defined.

(** ** Directories and files *)

Lemma only_adds_dirs_refl f : only_adds_dirs f f.
Proof. intros q. by left. Qed.

Lemma only_adds_dirs_trans f1 f2 f3 :
  only_adds_dirs f1 f2 -> only_adds_dirs f2 f3 -> only_adds_dirs f1 f3.
Proof.
  intros H12 H23 q. destruct (H12 q) as [E12 | [N1 D2]], (H23 q) as [E23 | [N2 D3]].
  - left. congruence.
  - right. split; congruence.
  - right. split; congruence.
  - congruence.
Qed.

Lemma node_at_None_lookup f p : node_at f p = None -> implicit_dir p = false /\ f !! p = None.
Proof. unfold node_at. by destruct (implicit_dir p). Qed.

Lemma node_at_explicit f p : implicit_dir p = false -> node_at f p = f !! p.
Proof. unfold node_at. by intros ->. Qed.

Lemma only_adds_dirs_insert f p :
  f !! p = None -> only_adds_dirs f (<[p := Dir]> f).
Proof.
  intros Hp q. destruct (decide (p = q)) as [<- | Hne].
  - right. by rewrite lookup_insert_eq.
  - left. by rewrite lookup_insert_ne.
Qed.

Lemma only_adds_dirs_node_at f f' q n :
  only_adds_dirs f f' -> node_at f q = Some n -> node_at f' q = Some n.
Proof.
  intros H. unfold node_at. destruct (implicit_dir q); [done |].
  destruct (H q) as [-> | [-> _]]; done.
Qed.

Lemma only_adds_dirs_exists f f' p :
  only_adds_dirs f f' -> existsSync_at f p = true -> existsSync_at f' p = true.
Proof.
  intros H. unfold existsSync_at.
  destruct (node_at f (resolve p)) as [n |] eqn:Hn; [| done].
  by rewrite (only_adds_dirs_node_at f f' _ n H Hn).
Qed.


Lemma mkdir_prefixes_only_adds f made todo f' :
  mkdir_prefixes f made todo = Some f' -> only_adds_dirs f f'.
Proof.
  revert f made. induction todo as [| seg rest IH]; intros f made; cbn.
  - intros [= <-]. apply only_adds_dirs_refl.
  - destruct (node_at f (made ++ [seg])) as [[| c] |] eqn:Hn; [apply IH | done |].
    intros Hrec. apply node_at_None_lookup in Hn as [_ Hn].
    eapply only_adds_dirs_trans; [by apply only_adds_dirs_insert | by eapply IH].
Qed.

Lemma mkdir_prefixes_creates f made todo f' :
  mkdir_prefixes f made todo = Some f' -> todo <> [] ->
  node_at f' (made ++ todo) = Some Dir.
Proof.
  revert f made. induction todo as [| seg rest IH]; intros f made Hrun Hne; [done |].
  cbn in Hrun.
  assert (Hstep : forall f1, node_at f1 (made ++ [seg]) = Some Dir ->
            mkdir_prefixes f1 (made ++ [seg]) rest = Some f' ->
            node_at f' (made ++ seg :: rest) = Some Dir).
  { intros f1 Hhere Hrec. destruct rest as [| seg' rest'].
    - cbn in Hrec. by injection Hrec as <-.
    - replace (made ++ seg :: seg' :: rest') with ((made ++ [seg]) ++ seg' :: rest')
        by (by rewrite <- app_assoc).
      by eapply IH. }
  destruct (node_at f (made ++ [seg])) as [[| c] |] eqn:Hn; [by eapply Hstep | done |].
  eapply Hstep; [| exact Hrun].
  apply node_at_None_lookup in Hn as [Himp _].
  by rewrite node_at_explicit, lookup_insert_eq.
Qed.

Lemma ensureDirectoryExists_adds (dir : string) (e : Env) (w w' : World) :
  ensureDirectoryExists dir e w = (Ret tt, w') ->
  existsSync_at (fs w') dir = true /\ only_adds_dirs (fs w) (fs w').
Proof.
  unfold ensureDirectoryExists, bind, existsSync.
  destruct (existsSync_at (fs w) dir) eqn:Hex; cbn [negb].
  - intros [= <-]. split; [done | apply only_adds_dirs_refl].
  - unfold mkdirSync, bind, get_world, emit, set_fs, throw, logSuccess, log.
    cbn [fs]. destruct (mkdir_prefixes (fs w) [] (resolve dir)) as [f |] eqn:Hmk; [| done].
    intros [= <-]. cbn [fs]. split; [| by eapply mkdir_prefixes_only_adds].
    unfold existsSync_at. destruct (resolve dir) as [| seg rest] eqn:Hres; [done |].
    rewrite ?Hres in Hmk.
    pose proof (mkdir_prefixes_creates _ _ _ _ Hmk ltac:(done)) as Hd.
    cbn [app] in Hd. by rewrite Hd.
Qed.






Lemma writeFileSync_success (p : string) (data : Buffer) (e : Env) (w w' : World) :
  writeFileSync p data e w = (Ret tt, w') ->
  path.ends_with_sep p = false
  /\ implicit_dir (resolve p) = false
  /\ node_at (fs w) (removelast (resolve p)) = Some Dir
  /\ w' = {| fs := <[resolve p := File data]> (fs w); console := console w;
             trace := trace w ++ [EvWrite p]; s3_pages := s3_pages w |}.
Proof.
  unfold writeFileSync, bind, get_world, emit, set_fs, throw. cbn [fs].
  destruct (path.ends_with_sep p); [done |].
  destruct (node_at (fs w) (resolve p)) as [[| c] |] eqn:Hn;
    destruct (node_at (fs w) (removelast (resolve p))) as [[| c'] |] eqn:Hparent;
    try done; intros [= <-]; repeat split; try done;
    unfold node_at in Hn; by destruct (implicit_dir (resolve p)).
Qed.

(** ** Download *)

Lemma bind_Ret_inv {A B} (m : M A) (k : A -> M B) (e : Env) (w w' : World) (b : B) :
  bind m k e w = (Ret b, w') ->
  exists a w1, m e w = (Ret a, w1) /\ k a e w1 = (Ret b, w').
Proof.
  unfold bind. destruct (m e w) as [[a | x | c] w1]; [eauto | done | done].
Qed.

Lemma try_catch_rethrow_Ret_inv {A} (body : M A) (note : exn -> M unit) (e : Env)
    (w w' : World) (a : A) :
  try_catch body (fun error => note error;; throw error) e w = (Ret a, w') ->
  body e w = (Ret a, w').
Proof.
  unfold try_catch. destruct (body e w) as [[a' | x | c] w1]; [done | | done].
  unfold bind, throw. by destruct (note x e w1) as [[[] | y | c] w2].
Qed.

(** What a download that returns has done: the body arrived whole,
    directories were made for it, and the file was written. *)
Lemma downloadObject_success (client : S3Client) (bucketName key localPath : string)
    (e : Env) (w w' : World) :
  downloadObject client bucketName key localPath e w = (Ret tt, w') ->
  exists chunks fm,
    s3_get e (length (trace w)) bucketName key = GetBody chunks None
    /\ only_adds_dirs (fs w) fm
    /\ node_at fm (removelast (resolve localPath)) = Some Dir
    /\ path.ends_with_sep localPath = false
    /\ implicit_dir (resolve localPath) = false
    /\ fs w' = <[resolve localPath := File (Buffer_concat chunks)]> fm.
Proof.
  intros Hrun. unfold downloadObject in Hrun.
  apply try_catch_rethrow_Ret_inv in Hrun.
  unfold bind at 1 2 3 in Hrun. unfold ask, now, emit in Hrun.
  cbn [fs console trace s3_pages] in Hrun.
  destruct (s3_get e (length (trace w)) bucketName key) as [x | | chunks [x |]];
    try done.
  unfold streamToBuffer in Hrun.
  apply bind_Ret_inv in Hrun as (buffer & w1 & Hbuf & Hrun).
  injection Hbuf as <- <-.
  apply bind_Ret_inv in Hrun as ([] & w2 & Hdir & Hrun).
  apply bind_Ret_inv in Hrun as ([] & w3 & Hwrite & Hlog).
  apply ensureDirectoryExists_adds in Hdir as [_ Hadds]. cbn [fs] in Hadds.
  apply writeFileSync_success in Hwrite as (Hsep & Himp & Hparent & ->).
  injection Hlog as <-. cbn [fs].
  exists chunks, (fs w2). split; [reflexivity |]. split; [exact Hadds |].
  split; [exact Hparent |]. split; [exact Hsep |]. split; [exact Himp | reflexivity].
Qed.

(** X5. A download that returns has stored the whole body: the file at
    the local path holds the chunks of the body in order, its parent is a
    directory, and besides that file only directories were added. *)
Theorem downloadObject_stores_body (client : S3Client) (bucketName key localPath : string)
    (e : Env) (w w' : World) :
  downloadObject client bucketName key localPath e w = (Ret tt, w') ->
  exists chunks,
    s3_get e (length (trace w)) bucketName key = GetBody chunks None
    /\ node_at (fs w') (resolve localPath) = Some (File (Buffer_concat chunks))
    /\ node_at (fs w') (removelast (resolve localPath)) = Some Dir
    /\ forall q, q <> resolve localPath ->
         fs w' !! q = fs w !! q \/ (fs w !! q = None /\ fs w' !! q = Some Dir).
Proof.
  intros Hrun.
  destruct (downloadObject_success _ _ _ _ _ _ _ Hrun)
    as (chunks & fm & Hget & Hadds & Hparent & Hsep & Himp & Hfs).
  exists chunks. split; [exact Hget |]. rewrite Hfs. repeat split.
  - by rewrite node_at_explicit, lookup_insert_eq.
  - destruct (decide (removelast (resolve localPath) = resolve localPath)) as [Heq | Hne].
    + destruct (resolve localPath) as [| seg rest] using rev_ind; [done |].
      rewrite removelast_last in Heq.
      apply (f_equal length) in Heq. rewrite length_app in Heq. cbn in Heq. lia.
    + unfold node_at in *. destruct (implicit_dir (removelast (resolve localPath)));
        [done |]. by rewrite lookup_insert_ne.
  - intros q Hq. rewrite lookup_insert_ne by done. apply Hadds.
Qed.

Lemma downloadObject_stores_body_witness :
  let e := Sample.env ["my-bucket"] EmptyString [] in
  let w := Sample.world ∅ [] in
  let localPath := "temp-r2-sync/photos/a.png" in
  let w' := (downloadObject Sample.client "my-bucket" "photos/a.png" localPath e w).2 in
  exists chunks,
    s3_get e (length (trace w)) "my-bucket" "photos/a.png" = GetBody chunks None
    /\ node_at (fs w') (resolve localPath) = Some (File (Buffer_concat chunks))
    /\ node_at (fs w') (removelast (resolve localPath)) = Some Dir
    /\ forall q, q <> resolve localPath ->
         fs w' !! q = fs w !! q \/ (fs w !! q = None /\ fs w' !! q = Some Dir).
Proof.
  intros e w localPath w'.
  apply (downloadObject_stores_body Sample.client "my-bucket" "photos/a.png" localPath e w w').
  vm_compute. reflexivity.
Defined.

(** X6. A download whose body does not arrive whole (the request fails,
    the response has no body, or the stream errors) writes nothing: it logs
    the failure, throws the error, and the file system is as before. *)
Theorem downloadObject_fails_cleanly (client : S3Client) (bucketName key localPath : string)
    (e : Env) (w : World) (x : exn) :
  download_error (s3_get e (length (trace w)) bucketName key) = Some x ->
  downloadObject client bucketName key localPath e w
  = (Throw x,
     {| fs := fs w;
        console := console w
          ++ [(LError, "Failed to download " +:+ key +:+ ": " +:+ errorMessage x)];
        trace := trace w ++ [EvGetObject bucketName key];
        s3_pages := s3_pages w |}).
Proof.
  intros Herr. unfold downloadObject, try_catch.
  unfold bind at 1 2 3. unfold ask, now, emit. cbn [fs console trace s3_pages].
  destruct (s3_get e (length (trace w)) bucketName key) as [y | | chunks [y |]];
    cbn in Herr; try done; by injection Herr as ->.
Qed.

Lemma downloadObject_fails_cleanly_witness :
  let e := {| argv := ["my-bucket"]; process_env := Sample.credentials;
              s3_get := fun _ _ _ => GetBody [utf8 "half"] (Some (JsError "socket hang up"));
              spawn := fun _ _ _ => (0%Z, EmptyString, EmptyString);
              sqlite := fun _ _ => Rows [] |} in
  let w := Sample.world ∅ [] in
  downloadObject Sample.client "my-bucket" "a" "temp-r2-sync/a" e w
  = (Throw (JsError "socket hang up"),
     {| fs := ∅;
        console := [(LError, "Failed to download a: socket hang up")];
        trace := [EvGetObject "my-bucket" "a"];
        s3_pages := s3_pages w |}).
Proof.
  intros e w.
  apply (downloadObject_fails_cleanly Sample.client "my-bucket" "a" "temp-r2-sync/a" e w
           (JsError "socket hang up")).
  reflexivity.
Defined.

(** ** The transfer loop *)


Lemma transfers_app (tr1 tr2 : list event) :
  transfers (tr1 ++ tr2) = transfers tr1 ++ transfers tr2.
Proof. apply List.filter_app. Qed.

Lemma uploadObjectToLocal_Ret (bucketName key filePath : string) (e : Env) (w w' : World) :
  uploadObjectToLocal bucketName key filePath e w = (Ret tt, w') ->
  fs w' = fs w
  /\ trace w' = trace w ++ [EvExec "wrangler" (put_args bucketName key filePath) 0].
Proof.
  intros Hrun. pose proof (uploadObjectToLocal_result bucketName key filePath e w) as Hu.
  destruct (spawn e (length (trace w)) "wrangler" (put_args bucketName key filePath))
    as [[code stdout] stderr].
  rewrite Hrun in Hu. destruct (Z.eqb_spec code 0) as [-> | Hne]; [| done].
  by injection Hu as ->.
Qed.

(** The trace of [ensureDirectoryExists], however it ends. *)
Lemma ensureDirectoryExists_trace (dir : string) (e : Env) (w : World) :
  trace (ensureDirectoryExists dir e w).2
  = trace w ++ (if existsSync_at (fs w) dir then [] else [EvMkdir dir]).
Proof.
  unfold ensureDirectoryExists, bind, existsSync, mkdirSync, bind, get_world, emit,
    set_fs, throw, logSuccess, log.
  destruct (existsSync_at (fs w) dir); cbn [negb fs snd trace].
  - by rewrite app_nil_r.
  - by destruct (mkdir_prefixes (fs w) [] (resolve dir)).
Qed.

Lemma writeFileSync_trace (p : string) (data : Buffer) (e : Env) (w : World) :
  trace (writeFileSync p data e w).2 = trace w ++ [EvWrite p].
Proof.
  unfold writeFileSync, bind, get_world, emit, set_fs, throw. cbn [fs].
  destruct (path.ends_with_sep p); [done |].
  destruct (node_at (fs w) (resolve p)) as [[| c] |];
    destruct (node_at (fs w) (removelast (resolve p))) as [[| c'] |]; done.
Qed.

(** Whatever a download does, its only transfer is the one request. *)
Lemma downloadObject_transfers (client : S3Client) (bucketName key localPath : string)
    (e : Env) (w : World) :
  transfers (trace (downloadObject client bucketName key localPath e w).2)
  = transfers (trace w) ++ [EvGetObject bucketName key].
Proof.
  unfold downloadObject, try_catch.
  unfold bind at 1 2 3. unfold ask, now, emit. cbn [fs console trace s3_pages].
  match goal with |- context [_ e ?w0] => set (wa := w0) end.
  assert (Hwa : transfers (trace wa) = transfers (trace w) ++ [EvGetObject bucketName key])
    by (subst wa; cbn [trace]; by rewrite transfers_app).
  assert (Hnote : forall x w1, trace
            ((logError ("Failed to download " +:+ key +:+ ": " +:+ errorMessage x);;
              @throw unit x) e w1).2 = trace w1) by reflexivity.
  destruct (s3_get e (length (trace w)) bucketName key) as [x | | chunks [x |]];
    try (cbn [streamToBuffer]; unfold bind at 1; cbn [throw]; by rewrite Hnote).
  - cbn [throw]. by rewrite Hnote.
  - cbn [throw]. by rewrite Hnote.
  - cbn [streamToBuffer]. unfold bind at 1. cbn [ret]. unfold bind at 1.
    pose proof (ensureDirectoryExists_trace (path.dirname localPath) e wa) as Hdir.
    destruct (ensureDirectoryExists (path.dirname localPath) e wa) as [[[] | x | c] wb];
      cbn [snd] in Hdir.
    + unfold bind at 1.
      pose proof (writeFileSync_trace localPath (Buffer_concat chunks) e wb) as Hwr.
      destruct (writeFileSync localPath (Buffer_concat chunks) e wb) as [[[] | x | c] wc];
        cbn [snd] in Hwr; rewrite ?Hnote; cbn [logSuccess log snd trace];
        rewrite Hwr, Hdir, !transfers_app, Hwa;
        destruct (existsSync_at (fs wa) (path.dirname localPath)); cbn;
        by rewrite ?app_nil_r.
    + rewrite Hnote, Hdir, transfers_app, Hwa.
      destruct (existsSync_at (fs wa) (path.dirname localPath)); cbn;
        by rewrite ?app_nil_r.
    + cbn [snd]. rewrite Hdir, transfers_app, Hwa.
      destruct (existsSync_at (fs wa) (path.dirname localPath)); cbn;
        by rewrite ?app_nil_r.
Qed.

Lemma unlinkSync_Ret (p : string) (e : Env) (w w' : World) :
  unlinkSync p e w = (Ret tt, w') ->
  fs w' = delete (resolve p) (fs w) /\ trace w' = trace w ++ [EvUnlink p].
Proof.
  unfold unlinkSync, bind, get_world, emit, set_fs, throw. cbn [fs].
  destruct (node_at (fs w) (resolve p)) as [[| c] |]; try done.
  by intros [= <-].
Qed.

(** One round of the loop that goes through, step by step. *)
Lemma syncObjects_loop_round (client : S3Client) (bucketName : string) (total : nat)
    (o : _Object) (rest : list _Object) (processed : nat) (e : Env) (w w' : World) :
  truthy (Key o) = true ->
  syncObjects_loop client bucketName total (o :: rest) processed e w = (Ret tt, w') ->
  let key := interpolate (Key o) in
  let tmp := path.join [TEMP_DIR; key] in
  exists wa wb wc wd,
    fs wa = fs w /\ trace wa = trace w
    /\ downloadObject client bucketName key tmp e wa = (Ret tt, wb)
    /\ uploadObjectToLocal bucketName key tmp e wb = (Ret tt, wc)
    /\ (if existsSync_at (fs wc) tmp then unlinkSync tmp else ret tt) e wc = (Ret tt, wd)
    /\ syncObjects_loop client bucketName total rest (S processed) e wd = (Ret tt, w').
Proof.
  intros Hkey Hrun key tmp. cbn [syncObjects_loop] in Hrun. rewrite Hkey in Hrun.
  cbn [negb] in Hrun. fold key tmp in Hrun.
  apply bind_Ret_inv in Hrun as ([] & wa & Hlog & Hrun).
  apply bind_Ret_inv in Hrun as ([] & wb & Hd & Hrun).
  apply bind_Ret_inv in Hrun as ([] & wc & Hu & Hrun).
  apply bind_Ret_inv in Hrun as (present & wc' & Hex & Hrun).
  apply bind_Ret_inv in Hrun as ([] & wd & Hun & Hrun).
  injection Hex as <- <-. injection Hlog as <-.
  match type of Hd with downloadObject _ _ _ _ _ ?w0 = _ => exists w0, wb, wc, wd end.
  repeat split; done.
Qed.




Lemma syncObjects_loop_transfers (client : S3Client) (bucketName : string)
    (total : nat) (objects : list _Object) (processed : nat) (e : Env) (w w' : World) :
  syncObjects_loop client bucketName total objects processed e w = (Ret tt, w') ->
  transfers (trace w')
  = transfers (trace w) ++ flat_map (transfer_of bucketName) (transferred_keys objects).
Proof.
  revert processed w. induction objects as [| o rest IH]; intros processed w Hrun.
  - injection Hrun as <-. cbn. by rewrite app_nil_r.
  - cbn [transferred_keys omap list_omap]. destruct (truthy (Key o)) eqn:Hkey.
    2:{ cbn [syncObjects_loop] in Hrun. rewrite Hkey in Hrun. cbn [negb] in Hrun.
        by eapply IH. }
    apply syncObjects_loop_round in Hrun
      as (wa & wb & wc & wd & _ & Hta & Hd & Hu & Hun & Hrest); [| done].
    apply truthy_interpolate in Hkey as [Hkey _].
    set (key := interpolate (Key o)) in *. rewrite Hkey.
    fold (transferred_keys rest). cbn [flat_map].
    apply IH in Hrest. rewrite Hrest. clear Hrest.
    pose proof (downloadObject_transfers client bucketName key
                  (path.join [TEMP_DIR; key]) e wa) as Htb.
    rewrite Hd in Htb. cbn [snd] in Htb. rewrite Hta in Htb.
    apply uploadObjectToLocal_Ret in Hu as [_ Htc].
    assert (Htd : transfers (trace wd) = transfers (trace wc)).
    { destruct (existsSync_at (fs wc) _).
      - apply unlinkSync_Ret in Hun as [_ ->]. rewrite transfers_app. cbn.
        by rewrite app_nil_r.
      - by injection Hun as <-. }
    rewrite Htd, Htc, transfers_app, Htb. unfold transfer_of at 2. cbn.
    by rewrite <- !app_assoc.
Qed.

(** X8. Transfers are strictly sequential and in plan order: in a run of
    [syncObjects] that returns, the downloads and child processes are, for
    each keyed object of the plan in turn, its download followed by its
    upload from the scratch file, and nothing else. *)
Theorem syncObjects_transfers_in_order (client : S3Client) (bucketName : string)
    (objectsToSync : list _Object) (e : Env) (w w' : World) :
  syncObjects client bucketName objectsToSync e w = (Ret tt, w') ->
  transfers (trace w')
  = transfers (trace w)
    ++ flat_map (transfer_of bucketName) (transferred_keys objectsToSync).
Proof. apply syncObjects_loop_transfers. Qed.

Lemma syncObjects_transfers_in_order_witness :
  let e := Sample.env ["my-bucket"] EmptyString [] in
  let w := Sample.world ∅ [] in
  let plan := [Sample.object "a"; Sample.object "b"] in
  let w' := (syncObjects Sample.client "my-bucket" plan e w).2 in
  transfers (trace w')
  = [EvGetObject "my-bucket" "a";
     EvExec "wrangler" (put_args "my-bucket" "a" "temp-r2-sync/a") 0;
     EvGetObject "my-bucket" "b";
     EvExec "wrangler" (put_args "my-bucket" "b" "temp-r2-sync/b") 0].
Proof.
  intros e w plan w'.
  apply (syncObjects_transfers_in_order Sample.client "my-bucket" plan e w w').
  vm_compute. reflexivity.
Defined.

(** X9. A failed download stops the pipeline before any upload of that
    object: when the objects before a position went through and the download
    of the object at that position throws, [syncObjects] throws the same
    error in the world the download left; the transfers are those of the
    objects before, followed by the one download. *)
Theorem syncObjects_stops_at_failed_download (client : S3Client)
    (bucketName key : string) (pre post : list _Object) (o : _Object) (e : Env)
    (w w1 w2 : World) (x : exn) :
  let plan := pre ++ o :: post in
  let tempFilePath := path.join [TEMP_DIR; key] in
  Key o = Some key -> key <> EmptyString ->
  syncObjects_loop client bucketName (length plan) pre 0 e w = (Ret tt, w1) ->
  (logStep ("[" +:+ pretty (S (length (transferred_keys pre))) +:+ "/"
            +:+ pretty (length plan) +:+ "] Processing: " +:+ key);;
   downloadObject client bucketName key tempFilePath) e w1 = (Throw x, w2) ->
  syncObjects client bucketName plan e w = (Throw x, w2)
  /\ transfers (trace w2)
     = transfers (trace w)
       ++ flat_map (transfer_of bucketName) (transferred_keys pre)
       ++ [EvGetObject bucketName key].
Proof.
  intros plan tempFilePath Hkey Hne Hpre Hdown.
  assert (Htruthy : truthy (Key o) = true) by (rewrite Hkey; by apply truthy_Some).
  split.
  - unfold syncObjects. subst plan. rewrite syncObjects_loop_app.
    unfold bind at 1. rewrite Hpre. cbn [syncObjects_loop Nat.add].
    rewrite Htruthy, Hkey. cbn [negb interpolate].
    rewrite <- bind_assoc_at. unfold bind at 1.
    fold tempFilePath. by rewrite Hdown.
  - apply syncObjects_loop_transfers in Hpre.
    unfold bind in Hdown. cbn [logStep log] in Hdown.
    match type of Hdown with context [downloadObject _ _ _ _ e ?w0] =>
      pose proof (downloadObject_transfers client bucketName key tempFilePath e w0) as Hd
    end.
    destruct (downloadObject client bucketName key tempFilePath e _) as [[[] | y | c] wb];
      [discriminate | | discriminate].
    injection Hdown as _ <-. cbn [snd trace] in Hd.
    by rewrite Hd, Hpre, <- app_assoc.
Qed.

Lemma syncObjects_stops_at_failed_download_witness :
  let e := {| argv := ["my-bucket"]; process_env := Sample.credentials;
              s3_get := fun _ _ key =>
                if String.eqb key "b" then GetNoBody else GetBody [utf8 key] None;
              spawn := fun _ _ _ => (0%Z, EmptyString, EmptyString);
              sqlite := fun _ _ => Rows [] |} in
  let w := Sample.world ∅ [] in
  let plan := [Sample.object "a"; Sample.object "b"; Sample.object "c"] in
  let w1 := (syncObjects_loop Sample.client "my-bucket" 3 [Sample.object "a"] 0 e w).2 in
  let w2 := ((logStep "[2/3] Processing: b";;
              downloadObject Sample.client "my-bucket" "b" "temp-r2-sync/b") e w1).2 in
  syncObjects Sample.client "my-bucket" plan e w
  = (Throw (JsError "No body in response"), w2)
  /\ transfers (trace w2)
     = [EvGetObject "my-bucket" "a";
        EvExec "wrangler" (put_args "my-bucket" "a" "temp-r2-sync/a") 0;
        EvGetObject "my-bucket" "b"].
Proof.
  intros e w plan w1 w2.
  apply (syncObjects_stops_at_failed_download Sample.client "my-bucket" "b"
           [Sample.object "a"] [Sample.object "c"] (Sample.object "b") e w w1 w2
           (JsError "No body in response")).
  - reflexivity.
  - discriminate.
  - vm_compute. reflexivity.
  - vm_compute. reflexivity.
Defined.


Lemma objectsToSync_truthy (force clean : bool) (remote : list _Object)
    (localKeys : list string) :
  Forall (fun o => truthy (Key o) = true) (objectsToSync force clean remote localKeys).
Proof.
  apply Forall_forall. intros o Ho. apply list_elem_of_In in Ho.
  unfold objectsToSync in Ho. apply filter_In in Ho as [_ Ho].
  by destruct (truthy (Key o)).
Qed.

(** X11. Every object the reconciler selects has a non-empty key, in every
    mode and for every local key set; so [syncObjects] skips none of them:
    the keys it transfers are as many as the plan has objects. *)
Theorem objectsToSync_all_transferred (force clean : bool) (remote : list _Object)
    (localKeys : list string) :
  let plan := objectsToSync force clean remote localKeys in
  Forall has_key plan
  /\ map Key plan = map Some (transferred_keys plan)
  /\ length (transferred_keys plan) = length plan.
Proof.
  intros plan. pose proof (objectsToSync_truthy force clean remote localKeys) as Hall.
  fold plan in Hall. clearbody plan.
  assert (Hmap : map Key plan = map Some (transferred_keys plan)).
  { induction Hall as [| o l Ho _ IH]; [reflexivity |].
    cbn [map transferred_keys omap list_omap]. rewrite Ho.
    destruct (Key o) as [k |]; [| discriminate Ho]. cbn [map].
    f_equal. exact IH. }
  split; [| split; [exact Hmap |]].
  - eapply Forall_impl; [exact Hall |]. intros o Ho. unfold has_key.
    apply truthy_interpolate in Ho as [-> Hne]. exact Hne.
  - apply (f_equal length) in Hmap. by rewrite !length_map in Hmap.
Qed.

(** ** Credentials *)

Lemma forEach_logError (f : string -> string) (l : list string) (e : Env) (w : World) :
  forEach l (fun name => logError (f name)) e w
  = (Ret tt, with_console w (map (fun name => (LError, f name)) l)).
Proof.
  revert w. induction l as [| name l IH]; intros w; cbn [forEach map].
  - unfold ret, with_console. rewrite app_nil_r. by destruct w.
  - unfold bind at 1. cbn [logError log]. rewrite IH. unfold with_console.
    cbn [fs console trace s3_pages]. by rewrite <- app_assoc.
Qed.

Lemma missing_variables_nil (e : Env) :
  missing_variables e = [] <-> credentials_missing e = false.
Proof.
  unfold missing_variables, credentials_missing, required_variables. cbn [List.filter].
  destruct (truthy (process_env e !! "CLOUDFLARE_ACCOUNT_ID"));
    destruct (truthy (process_env e !! "CLOUDFLARE_ACCESS_KEY_ID"));
    destruct (truthy (process_env e !! "CLOUDFLARE_SECRET_ACCESS_KEY"));
    cbn; split; congruence.
Qed.

Lemma createRemoteClient_result (e : Env) (w : World) :
  if credentials_missing e
  then createRemoteClient e w = (Throw (JsError missing_credentials_message), w)
  else exists client, createRemoteClient e w = (Ret client, w)
         /\ process_env e !! "CLOUDFLARE_ACCOUNT_ID"
            = Some (interpolate (process_env e !! "CLOUDFLARE_ACCOUNT_ID"))
         /\ endpoint client
            = "https://" +:+ interpolate (process_env e !! "CLOUDFLARE_ACCOUNT_ID")
              +:+ ".r2.cloudflarestorage.com".
Proof.
  unfold createRemoteClient, credentials_missing, bind, ask, ACCOUNT_ID, ACCESS_KEY_ID,
    SECRET_ACCESS_KEY.
  destruct (truthy (process_env e !! "CLOUDFLARE_ACCOUNT_ID")) eqn:Hacc;
    destruct (truthy (process_env e !! "CLOUDFLARE_ACCESS_KEY_ID"));
    destruct (truthy (process_env e !! "CLOUDFLARE_SECRET_ACCESS_KEY"));
    cbn [negb orb]; try reflexivity.
  eexists. split; [reflexivity |]. split; [| reflexivity].
  by apply truthy_interpolate in Hacc as [Hacc _].
Qed.

(** X12. The client constructor and the pre-flight check apply one test, a
    variable being missing when it is unset or empty: with no variable
    missing the check returns without a word and the constructor returns a
    client for the account's endpoint; with one missing the check exits with
    1 and the constructor throws. *)
Theorem credentials_tests_agree (e : Env) (w : World) :
  (missing_variables e = [] ->
   checkEnvironmentVariables e w = (Ret tt, w)
   /\ exists client account,
        process_env e !! "CLOUDFLARE_ACCOUNT_ID" = Some account
        /\ createRemoteClient e w = (Ret client, w)
        /\ endpoint client = "https://" +:+ account +:+ ".r2.cloudflarestorage.com")
  /\ (missing_variables e <> [] ->
      (exists w', checkEnvironmentVariables e w = (Exit 1, w'))
      /\ createRemoteClient e w = (Throw (JsError missing_credentials_message), w)).
Proof.
  pose proof (checkEnvironmentVariables_result e w) as Hcheck.
  pose proof (createRemoteClient_result e w) as Hclient.
  pose proof (missing_variables_nil e) as Hnil.
  destruct (credentials_missing e).
  - split; [intros Hm; apply Hnil in Hm; discriminate | done].
  - split; [| intros Hm; by destruct Hm; apply Hnil].
    intros _. split; [exact Hcheck |].
    destruct Hclient as (client & Hrun & Hacc & Hend). eauto.
Qed.

Lemma credentials_tests_agree_witness :
  let e := Sample.env ["my-bucket"] EmptyString [] in
  let e' := {| argv := ["my-bucket"];
               process_env := <["CLOUDFLARE_ACCESS_KEY_ID" := EmptyString]> Sample.credentials;
               s3_get := s3_get e; spawn := spawn e; sqlite := sqlite e |} in
  let w := Sample.world ∅ [] in
  (checkEnvironmentVariables e w = (Ret tt, w)
   /\ exists client account,
        process_env e !! "CLOUDFLARE_ACCOUNT_ID" = Some account
        /\ createRemoteClient e w = (Ret client, w)
        /\ endpoint client = "https://" +:+ account +:+ ".r2.cloudflarestorage.com")
  /\ ((exists w', checkEnvironmentVariables e' w = (Exit 1, w'))
      /\ createRemoteClient e' w = (Throw (JsError missing_credentials_message), w)).
Proof.
  intros e e' w. split.
  - apply (credentials_tests_agree e w). vm_compute. reflexivity.
  - apply (credentials_tests_agree e' w). vm_compute. discriminate.
Defined.

Lemma checkEnvironmentVariables_reports_missing_at (e : Env) (w : World) :
  missing_variables e <> [] ->
  checkEnvironmentVariables e w
  = (Exit 1, with_console w (missing_report (missing_variables e))).
Proof.
  intros Hm. unfold checkEnvironmentVariables. unfold bind at 1. unfold ask at 1.
  fold required_variables. fold (missing_variables e).
  destruct (missing_variables e) as [| name l] eqn:Hl; [done |].
  cbn [length Nat.ltb Nat.leb]. rewrite <- Hl. clear Hl Hm.
  unfold bind at 1. cbn [logError log]. unfold bind at 1.
  rewrite forEach_logError. unfold bind, logError, log, process_exit, with_console,
    missing_report.
  cbn [fs console trace s3_pages]. by rewrite <- !app_assoc.
Qed.

(** X13. With variables missing, [checkEnvironmentVariables] names exactly
    the missing ones, in the order account id, access key id, secret access
    key, between a heading and a hint, and exits with 1 without touching
    anything but the console. *)
Theorem checkEnvironmentVariables_reports_missing (e : Env) (w : World) :
  missing_variables e <> [] ->
  checkEnvironmentVariables e w
  = (Exit 1, with_console w (missing_report (missing_variables e))).
Proof. apply checkEnvironmentVariables_reports_missing_at. Qed.

Lemma checkEnvironmentVariables_reports_missing_witness :
  let e := {| argv := ["my-bucket"];
              process_env := list_to_map [("CLOUDFLARE_ACCESS_KEY_ID", "id")];
              s3_get := fun _ _ _ => GetNoBody;
              spawn := fun _ _ _ => (0%Z, EmptyString, EmptyString);
              sqlite := fun _ _ => Rows [] |} in
  let w := Sample.world ∅ [] in
  checkEnvironmentVariables e w
  = (Exit 1,
     with_console w
       [(LError, "Missing required environment variables:");
        (LError, "  - CLOUDFLARE_ACCOUNT_ID");
        (LError, "  - CLOUDFLARE_SECRET_ACCESS_KEY");
        (LError, newline +:+ "Please set these in your environment or in a .env file")]).
Proof.
  intros e w.
  apply (checkEnvironmentVariables_reports_missing e w).
  vm_compute. discriminate.
Defined.

(** ** Pre-flight checks of [main] *)

Lemma mode_line_logged (e : Env) (w : World) :
  (if cleanSync (argv e)
   then logInfo "Clean mode enabled - will delete all local objects first"
   else if forceSync (argv e)
        then logInfo "Force mode enabled - will overwrite all objects"
        else logInfo "Normal mode - will sync only missing objects") e w
  = (Ret tt, with_console w [(LInfo, mode_line (argv e))]).
Proof.
  unfold mode_line. destruct (cleanSync (argv e)); [reflexivity |].
  destruct (forceSync (argv e)); reflexivity.
Qed.

(** X14. Missing credentials end [main] before any input or output other
    than the console: with a bucket name given and no help flag, [main]
    exits with 1, and the file system, the trace and the pending answers of
    the remote store are as before. *)
Theorem main_missing_credentials_no_io (e : Env) (w : World) :
  help_requested (argv e) = false ->
  truthy (BUCKET_NAME (argv e)) = true ->
  missing_variables e <> [] ->
  exists w', main e w = (Exit 1, w')
    /\ fs w' = fs w /\ trace w' = trace w /\ s3_pages w' = s3_pages w
    /\ exists before, console w' = before ++ missing_report (missing_variables e).
Proof.
  intros Hhelp Hbucket Hmissing. rewrite (main_proceeds e w Hhelp Hbucket).
  unfold try_catch, main_proceed. unfold bind at 1. unfold ask at 1.
  unfold bind at 1. rewrite mode_line_logged. unfold bind at 1.
  rewrite checkEnvironmentVariables_reports_missing_at by done.
  eexists. split; [reflexivity |]. cbn. repeat split. eauto.
Qed.

Lemma main_missing_credentials_no_io_witness :
  let e := {| argv := ["my-bucket"; "--force"];
              process_env := ∅;
              s3_get := fun _ _ _ => GetNoBody;
              spawn := fun _ _ _ => (0%Z, EmptyString, EmptyString);
              sqlite := fun _ _ => Rows [] |} in
  let w := Sample.world Sample.two_trees [Sample.object "a"] in
  exists w', main e w = (Exit 1, w')
    /\ fs w' = fs w /\ trace w' = trace w /\ s3_pages w' = s3_pages w
    /\ exists before, console w' = before ++ missing_report (missing_variables e).
Proof.
  intros e w. apply (main_missing_credentials_no_io e w).
  - reflexivity.
  - reflexivity.
  - vm_compute. discriminate.
Defined.

(** X15. An unavailable [wrangler] ends [main] after the one version probe:
    with a bucket name, no help flag and the credentials set, a non-zero
    exit of [npx wrangler --version] makes [main] exit with 1; the probe is
    the only event and the file system is as before. *)
Theorem main_wrangler_unavailable (e : Env) (w : World) :
  help_requested (argv e) = false ->
  truthy (BUCKET_NAME (argv e)) = true ->
  missing_variables e = [] ->
  wrangler_version_code e (trace w) <> 0%Z ->
  exists w', main e w = (Exit 1, w')
    /\ fs w' = fs w /\ s3_pages w' = s3_pages w
    /\ trace w' = trace w
         ++ [EvExec "npx" ["wrangler"; "--version"] (wrangler_version_code e (trace w))].
Proof.
  intros Hhelp Hbucket Hmissing Hcode. rewrite (main_proceeds e w Hhelp Hbucket).
  unfold try_catch, main_proceed. unfold bind at 1. unfold ask at 1.
  unfold bind at 1. rewrite mode_line_logged. unfold bind at 1.
  apply missing_variables_nil in Hmissing.
  match goal with |- context [checkEnvironmentVariables e ?w0] =>
    pose proof (checkEnvironmentVariables_result e w0) as Henv end.
  rewrite Hmissing in Henv. rewrite Henv. clear Henv.
  unfold bind at 1. cbn [logInfo log]. unfold bind at 1.
  unfold checkWranglerAvailable, wrangler_version_code, execCommand, try_catch, bind,
    ask, now, emit, logSuccess, logError, log, throw, ret, process_exit in *.
  cbn [fs console trace s3_pages with_console] in *.
  destruct (spawn e (length (trace w)) "npx" ["wrangler"; "--version"])
    as [[code stdout] stderr].
  cbn [fst] in Hcode. destruct (Z.eqb_spec code 0) as [-> | Hne]; [done |].
  eexists. split; [reflexivity |]. cbn. done.
Qed.

Lemma main_wrangler_unavailable_witness :
  let e := {| argv := ["my-bucket"];
              process_env := Sample.credentials;
              s3_get := fun _ _ _ => GetNoBody;
              spawn := fun _ _ _ => (127%Z, EmptyString, "npx: command not found");
              sqlite := fun _ _ => Rows [] |} in
  let w := Sample.world Sample.two_trees [Sample.object "a"] in
  exists w', main e w = (Exit 1, w')
    /\ fs w' = fs w /\ s3_pages w' = s3_pages w
    /\ trace w' = trace w ++ [EvExec "npx" ["wrangler"; "--version"] 127].
Proof.
  intros e w. apply (main_wrangler_unavailable e w).
  - reflexivity.
  - reflexivity.
  - vm_compute. reflexivity.
  - vm_compute. discriminate.
Defined.

(** ** Command line *)

Lemma split_char_head (c : ascii) (s : string) :
  nth 0 (split_char c s) EmptyString = before_first c s.
Proof.
  induction s as [| a rest IH]; [reflexivity |].
  cbn [split_char before_first]. destruct (Ascii.eqb a c); [reflexivity |].
  destruct (split_char c rest) as [| hd tl]; cbn in *; by rewrite <- IH.
Qed.

Lemma split_char_index_1_skip (a c : ascii) (s : string) :
  Ascii.eqb a c = false ->
  nth 1 (split_char c (String a s)) EmptyString = nth 1 (split_char c s) EmptyString.
Proof.
  intros Hne. cbn [split_char]. rewrite Hne.
  by destruct (split_char c s) as [| hd tl].
Qed.

Lemma before_first_free (c : ascii) (s : string) : free_of c s -> before_first c s = s.
Proof.
  induction s as [| a rest IH]; [reflexivity |]. cbn. intros [Hne Hfree].
  apply Ascii.eqb_neq in Hne. by rewrite Hne, IH.
Qed.

Lemma find_first {A} (f : A -> bool) (pre post : list A) (x : A) :
  Forall (fun a => f a = false) pre -> f x = true ->
  find f (pre ++ x :: post) = Some x.
Proof.
  intros Hpre Hx. induction Hpre as [| a pre Ha _ IH]; cbn; [by rewrite Hx |].
  by rewrite Ha.
Qed.

Lemma find_none {A} (f : A -> bool) (l : list A) :
  Forall (fun a => f a = false) l -> find f l = None.
Proof. induction 1 as [| a l Ha _ IH]; cbn; [done | by rewrite Ha]. Qed.

(** X16. The wrangler directory is read from the first argument that
    starts with [--wrangler-dir=]: it is the text after that prefix up to
    the next [=], so the whole value when the value has no [=]; later such
    arguments are ignored, and without any the directory is [./.wrangler]. *)
Theorem wranglerDir_from_first_flag :
  (forall args,
     Forall (fun arg => startsWith arg "--wrangler-dir=" = false) args ->
     wranglerDir args = "./.wrangler")
  /\ (forall pre value post,
        Forall (fun arg => startsWith arg "--wrangler-dir=" = false) pre ->
        wranglerDir (pre ++ ("--wrangler-dir=" +:+ value) :: post)
        = before_first "="%char value)
  /\ (forall pre value post,
        Forall (fun arg => startsWith arg "--wrangler-dir=" = false) pre ->
        free_of "="%char value ->
        wranglerDir (pre ++ ("--wrangler-dir=" +:+ value) :: post) = value).
Proof.
  assert (Hcut : forall pre value post,
    Forall (fun arg => startsWith arg "--wrangler-dir=" = false) pre ->
    wranglerDir (pre ++ ("--wrangler-dir=" +:+ value) :: post)
    = before_first "="%char value).
  { intros pre value post Hpre. unfold wranglerDir.
    rewrite (find_first _ pre post ("--wrangler-dir=" +:+ value) Hpre).
    - cbn [String.append]. repeat (rewrite split_char_index_1_skip by reflexivity).
      cbn [split_char Ascii.eqb Bool.eqb nth]. apply split_char_head.
    - by destruct value. }
  split; [| split].
  - intros args Hargs. unfold wranglerDir. by rewrite find_none.
  - exact Hcut.
  - intros pre value post Hpre Hfree. rewrite Hcut by done. by apply before_first_free.
Qed.

Lemma wranglerDir_from_first_flag_witness :
  wranglerDir ["my-bucket"; "--force"] = "./.wrangler"
  /\ wranglerDir ["my-bucket"; "--wrangler-dir=../api/.wrangler"; "--wrangler-dir=x"]
     = "../api/.wrangler"
  /\ wranglerDir ["my-bucket"; "--wrangler-dir=a=b"] = "a".
Proof.
  destruct wranglerDir_from_first_flag as (Hnone & Hfirst & Hfree).
  split; [| split].
  - apply Hnone. repeat constructor.
  - apply (Hfree ["my-bucket"] "../api/.wrangler" ["--wrangler-dir=x"]).
    + repeat constructor.
    + cbn. repeat split; discriminate.
  - apply (Hfirst ["my-bucket"] "a=b" []). repeat constructor.
Defined.

(** ** Local listing and clean mode *)

Lemma listLocalObjectsFromDatabase_returns (bucketName : string) (e : Env) (w : World) :
  exists keys w', listLocalObjectsFromDatabase bucketName e w = (Ret keys, w').
Proof.
  unfold listLocalObjectsFromDatabase, bind, try_catch, emit, ask, existsSync,
    logWarning, logInfo, logError, log, now, throw, ret.
  cbn [fs trace console s3_pages].
  destruct (existsSync_at (fs w) _); cbn; [| eauto].
  destruct (existsSync_at (fs w) _); cbn; [| eauto].
  destruct (sqlite e _ _); cbn; eauto.
Qed.

(** X17. [listLocalObjectsFromDatabase] always returns, so the handler of
    [listLocalObjects] around it never runs: listing the local objects is
    recording the call and reading the database, without the handler's two
    warnings. *)
Theorem listLocalObjects_handler_never_runs (bucketName : string) (e : Env) (w : World) :
  (exists keys w', listLocalObjectsFromDatabase bucketName e w = (Ret keys, w'))
  /\ listLocalObjects bucketName e w
     = (emit (EvListLocal bucketName);; listLocalObjectsFromDatabase bucketName) e w.
Proof.
  split; [apply listLocalObjectsFromDatabase_returns |].
  unfold listLocalObjects, bind, emit, try_catch.
  match goal with |- context [listLocalObjectsFromDatabase bucketName e ?w0] =>
    destruct (listLocalObjectsFromDatabase_returns bucketName e w0)
      as (keys & w' & ->) end.
  reflexivity.
Qed.


(** ** More on the reconciler *)

(** X19. In normal mode, more local keys never select more, and no local
    keys select what force mode selects: the selection for a larger local
    key set is a sublist of the selection for a smaller one, and with an
    empty local key set it is the force-mode selection. *)
Theorem objectsToSync_shrinks_with_local_keys (remote : list _Object)
    (local1 local2 : list string) :
  (forall k, k ∈ local1 -> k ∈ local2) ->
  objectsToSync false false remote local2 `sublist_of` objectsToSync false false remote local1
  /\ objectsToSync false false remote local1 `sublist_of` objectsToSync false false remote []
  /\ forall clean localKeys,
       objectsToSync false false remote [] = objectsToSync true clean remote localKeys.
Proof.
  intros Hsub.
  assert (Hmono : forall l1 l2, (forall k, k ∈ l1 -> k ∈ l2) ->
    objectsToSync false false remote l2 `sublist_of` objectsToSync false false remote l1).
  { intros l1 l2 H12. rewrite !objectsToSync_normal_filter.
    induction remote as [| o rest IH]; [done |].
    rewrite !filter_cons.
    destruct (decide (missing_locally l2 o)) as [H2 | H2].
    - rewrite decide_True; [by apply sublist_skip |].
      unfold missing_locally in *. destruct (Key o); [| done].
      destruct H2 as [Hne Hnot]. split; [done |]. intros Hin. by apply Hnot, H12.
    - destruct (decide (missing_locally l1 o)); [by apply sublist_cons | exact IH]. }
  split; [by apply Hmono |]. split.
  - apply Hmono. intros k Hk. by apply elem_of_nil in Hk.
  - intros clean localKeys. rewrite objectsToSync_normal_filter.
    rewrite (objectsToSync_all_filter true clean) by done.
    apply list_filter_iff. intros o. unfold missing_locally, has_key.
    destruct (Key o); [| done]. split; [by intros [? _] |].
    intros Hne. split; [done |]. apply not_elem_of_nil.
Qed.

Lemma objectsToSync_shrinks_with_local_keys_witness :
  let remote := [Sample.object "a"; Sample.object "b"; Sample.object "c"] in
  objectsToSync false false remote ["a"; "b"] `sublist_of` objectsToSync false false remote ["a"]
  /\ objectsToSync false false remote ["a"] `sublist_of` objectsToSync false false remote []
  /\ forall clean localKeys,
       objectsToSync false false remote [] = objectsToSync true clean remote localKeys.
Proof.
  intros remote.
  apply (objectsToSync_shrinks_with_local_keys remote ["a"] ["a"; "b"]).
  intros k Hk. apply elem_of_cons in Hk as [-> | Hk]; [left |].
  by apply elem_of_nil in Hk.
Defined.

(** ** Runs of [syncR2ToLocal] *)

Lemma quiet_list_requests (bucketName : string) (full : list ListObjectsV2CommandOutput) :
  Forall quiet_event (list_requests bucketName full).
Proof.
  unfold list_requests. constructor; [exact I |]. apply Forall_map.
  by apply Forall_true.
Qed.

Lemma ensureDirectoryExists_TEMP_DIR (e : Env) (w : World) :
  exists w', ensureDirectoryExists TEMP_DIR e w = (Ret tt, w')
    /\ s3_pages w' = s3_pages w
    /\ trace w' = trace w ++ (if existsSync_at (fs w) TEMP_DIR then [] else [EvMkdir TEMP_DIR]).
Proof.
  unfold ensureDirectoryExists, bind, existsSync.
  destruct (existsSync_at (fs w) TEMP_DIR) eqn:Hex; cbn [negb].
  - eexists. split; [reflexivity |]. by rewrite app_nil_r.
  - unfold mkdirSync, bind, get_world, emit, set_fs, throw, logSuccess, log. cbn [fs].
    assert (Hnone : node_at (fs w) ["temp-r2-sync"] = None).
    { revert Hex. unfold existsSync_at. change (resolve TEMP_DIR) with ["temp-r2-sync"].
      change (path.ends_with_sep TEMP_DIR) with false.
      by destruct (node_at (fs w) ["temp-r2-sync"]) as [[| c] |]. }
    change (resolve TEMP_DIR) with ["temp-r2-sync"]. cbn [mkdir_prefixes app].
    rewrite Hnone. eexists. split; [reflexivity |]. done.
Qed.

Lemma cleanLocalBucket_pages (e : Env) (w : World) :
  exists w', cleanLocalBucket e w = (Ret tt, w')
    /\ s3_pages w' = s3_pages w
    /\ trace w' = trace w
         ++ (if existsSync_at (fs w) ".wrangler/state/v3/r2"
             then [EvRm ".wrangler/state/v3/r2"] else []).
Proof.
  unfold cleanLocalBucket, cleanupDirectory, try_catch, bind, existsSync, rmSync, bind,
    get_world, emit, set_fs, logStep, logSuccess, logWarning, log.
  cbn [fs]. destruct (existsSync_at (fs w) ".wrangler/state/v3/r2") eqn:Hex; cbn [fs].
  - rewrite Hex. cbn. eauto.
  - cbn. rewrite app_nil_r. eauto.
Qed.

(** The steps of the [try] part before the remote listing, with the
    credentials set: they return and send nothing to the remote store. *)
Lemma syncR2ToLocal_prepares {A} (k : S3Client -> M A) (e : Env) (w : World) :
  credentials_missing e = false ->
  exists client w3 evs,
    (do remoteClient <- createRemoteClient;
     ensureDirectoryExists TEMP_DIR;;
     (if cleanSync (argv e) then
        logStep "Clean mode enabled - removing all local objects...";;
        cleanLocalBucket
      else ret tt);;
     k remoteClient) e w
    = k client e w3
    /\ s3_pages w3 = s3_pages w
    /\ trace w3 = trace w ++ evs
    /\ Forall (fun ev => ev = EvMkdir TEMP_DIR \/ ev = EvRm ".wrangler/state/v3/r2") evs
    /\ (cleanSync (argv e) = false -> only_adds_dirs (fs w) (fs w3)).
Proof.
  intros Hcreds. pose proof (createRemoteClient_result e w) as Hclient.
  rewrite Hcreds in Hclient. destruct Hclient as (client & Hclient & _).
  unfold bind at 1. rewrite Hclient.
  destruct (ensureDirectoryExists_TEMP_DIR e w) as (w1 & Hdir & Hp1 & Ht1).
  pose proof (ensureDirectoryExists_adds _ _ _ _ Hdir) as [_ Hadds].
  unfold bind at 1. rewrite Hdir. unfold bind at 1.
  destruct (cleanSync (argv e)).
  - unfold bind at 1. cbn [logStep log].
    match goal with |- context [cleanLocalBucket e ?w0] =>
      destruct (cleanLocalBucket_pages e w0) as (w2 & Hclean & Hp2 & Ht2) end.
    rewrite Hclean. exists client, w2. eexists. split; [reflexivity |].
    cbn [s3_pages trace fs] in Hp2, Ht2. split; [congruence |].
    split; [by rewrite Ht2, Ht1, <- app_assoc |].
    split; [| done]. apply Forall_app. split.
    + destruct (existsSync_at (fs w) TEMP_DIR); auto.
    + destruct (existsSync_at (fs w1) ".wrangler/state/v3/r2"); auto.
  - cbn [ret]. exists client, w1. eexists. split; [reflexivity |].
    split; [exact Hp1 |]. split; [exact Ht1 |]. split; [| done].
    destruct (existsSync_at (fs w) TEMP_DIR); auto.
Qed.

Lemma syncR2ToLocal_finally_trace (e : Env) (w : World) :
  exists w', syncR2ToLocal_finally e w = (Ret tt, w')
    /\ s3_pages w' = s3_pages w
    /\ trace w' = trace w ++ (if existsSync_at (fs w) TEMP_DIR then [EvRm TEMP_DIR] else []).
Proof.
  unfold syncR2ToLocal_finally, cleanupDirectory, bind, existsSync, rmSync, bind,
    get_world, emit, set_fs, logStep, logSuccess, log.
  cbn [fs]. destruct (existsSync_at (fs w) TEMP_DIR); cbn.
  - eauto.
  - rewrite app_nil_r. eauto.
Qed.

Lemma Forall_quiet_prepare (evs : list event) :
  Forall (fun ev => ev = EvMkdir TEMP_DIR \/ ev = EvRm ".wrangler/state/v3/r2") evs ->
  Forall quiet_event evs.
Proof. intros H. eapply Forall_impl; [exact H |]. by intros ev [-> | ->]. Qed.

(** X20. An empty remote listing ends the run quietly: with the
    credentials set and a listing without objects, [syncR2ToLocal] returns
    after the warning that nothing was found; it downloads nothing, runs no
    child process and does not read the local database. *)
Theorem syncR2ToLocal_empty_listing (e : Env) (w : World)
    (full : list ListObjectsV2CommandOutput) (last : ListObjectsV2CommandOutput)
    (rest : list (exn + ListObjectsV2CommandOutput)) :
  credentials_missing e = false ->
  s3_pages w = map inr full ++ inr last :: rest ->
  Forall (fun r => truthy (NextContinuationToken r) = true) full ->
  truthy (NextContinuationToken last) = false ->
  flat_map contents_of (full ++ [last]) = [] ->
  exists w' evs,
    syncR2ToLocal e w = (Ret tt, w')
    /\ trace w' = trace w ++ evs
    /\ Forall quiet_event evs
    /\ (LWarning, "No objects found in remote bucket") ∈ console w'.
Proof.
  intros Hcreds Hpages Hfull Hlast Hempty.
  unfold syncR2ToLocal. unfold bind at 1. cbn [log]. unfold try_finally.
  match goal with |- context [syncR2ToLocal_try e ?w0] => set (w0' := w0) end.
  assert (Htry : exists w1 evs,
    syncR2ToLocal_try e w0' = (Ret tt, w1)
    /\ trace w1 = trace w ++ evs /\ Forall quiet_event evs
    /\ (LWarning, "No objects found in remote bucket") ∈ console w1).
  { unfold syncR2ToLocal_try, try_catch. unfold bind at 1. unfold ask at 1.
    unfold bind at 1. cbn [logStep log].
    match goal with
    | |- context [bind createRemoteClient
                    (fun c => bind (ensureDirectoryExists TEMP_DIR)
                                (fun _ => bind _ (fun _ => @?k c))) e ?w1] =>
        destruct (syncR2ToLocal_prepares k e w1 Hcreds)
          as (client & w3 & evs & Hrun & Hp3 & Ht3 & Hq3 & _)
    end.
    rewrite Hrun. clear Hrun. cbn beta.
    unfold bind at 1. cbn [logStep log]. unfold bind at 1.
    erewrite listRemoteObjects_pages;
      [| cbn [s3_pages]; rewrite Hp3; exact Hpages | exact Hfull | exact Hlast].
    rewrite Hempty. cbn [length Nat.eqb logWarning log].
    eexists _, (evs ++ list_requests _ full). split; [reflexivity |].
    cbn [trace console]. split; [by rewrite Ht3, <- app_assoc |]. split.
    - apply Forall_app. split; [by apply Forall_quiet_prepare |].
      apply quiet_list_requests.
    - apply elem_of_app. right. by left. }
  destruct Htry as (w1 & evs & Hrun & Ht1 & Hq1 & Hw1). rewrite Hrun.
  destruct (syncR2ToLocal_finally_trace e w1) as (w2 & Hfin & _ & Ht2).
  rewrite Hfin. exists w2. eexists. split; [reflexivity |].
  split; [by rewrite Ht2, Ht1, <- app_assoc |]. split.
  - apply Forall_app. split; [exact Hq1 |].
    destruct (existsSync_at (fs w1) TEMP_DIR); repeat constructor.
  - revert Hfin. unfold syncR2ToLocal_finally, cleanupDirectory, bind, existsSync,
      rmSync, bind, get_world, emit, set_fs, logStep, logSuccess, log. cbn [fs].
    destruct (existsSync_at (fs w1) TEMP_DIR); cbn; intros [= <-]; cbn;
      rewrite !elem_of_app; auto.
Qed.

Lemma syncR2ToLocal_empty_listing_witness :
  let e := Sample.env ["my-bucket"; "--clean"] EmptyString ["a"] in
  let w := Sample.world Sample.two_trees [] in
  exists w' evs,
    syncR2ToLocal e w = (Ret tt, w')
    /\ trace w' = trace w ++ evs
    /\ Forall quiet_event evs
    /\ (LWarning, "No objects found in remote bucket") ∈ console w'.
Proof.
  intros e w.
  apply (syncR2ToLocal_empty_listing e w []
           {| Contents := Some []; NextContinuationToken := None |} []).
  - vm_compute. reflexivity.
  - reflexivity.
  - constructor.
  - reflexivity.
  - reflexivity.
Defined.

(** X21. Without credentials [syncR2ToLocal] sends nothing: it throws the
    error of the client constructor; the only event is the removal of a
    scratch directory that was already there, and the answers of the remote
    store stay unread. *)
Theorem syncR2ToLocal_missing_credentials (e : Env) (w : World) :
  credentials_missing e = true ->
  exists w',
    syncR2ToLocal e w = (Throw (JsError missing_credentials_message), w')
    /\ s3_pages w' = s3_pages w
    /\ trace w' = trace w
         ++ (if existsSync_at (fs w) TEMP_DIR then [EvRm TEMP_DIR] else []).
Proof.
  intros Hcreds.
  unfold syncR2ToLocal. unfold bind at 1. cbn [log]. unfold try_finally.
  unfold syncR2ToLocal_try, try_catch. unfold bind at 1. unfold ask at 1.
  unfold bind at 1. cbn [logStep log]. unfold bind at 1.
  match goal with |- context [createRemoteClient e ?w0] =>
    pose proof (createRemoteClient_result e w0) as Hclient end.
  rewrite Hcreds in Hclient. rewrite Hclient. clear Hclient.
  unfold bind at 1. cbn [logError log throw].
  match goal with |- context [syncR2ToLocal_finally e ?w0] =>
    destruct (syncR2ToLocal_finally_trace e w0) as (w2 & Hfin & Hp2 & Ht2) end.
  rewrite Hfin. exists w2. split; [reflexivity |]. split; [exact Hp2 | exact Ht2].
Qed.

Lemma syncR2ToLocal_missing_credentials_witness :
  let e := {| argv := ["my-bucket"];
              process_env := ∅;
              s3_get := fun _ _ _ => GetNoBody;
              spawn := fun _ _ _ => (0%Z, EmptyString, EmptyString);
              sqlite := fun _ _ => Rows [] |} in
  let w := Sample.world (Sample.dirs [["temp-r2-sync"]]) [Sample.object "a"] in
  exists w',
    syncR2ToLocal e w = (Throw (JsError missing_credentials_message), w')
    /\ s3_pages w' = s3_pages w
    /\ trace w' = trace w
         ++ (if existsSync_at (fs w) TEMP_DIR then [EvRm TEMP_DIR] else []).
Proof.
  intros e w. apply (syncR2ToLocal_missing_credentials e w).
  vm_compute. reflexivity.
Defined.

Lemma listLocalObjects_reads (bucketName : string) (keys : list string)
    (e : Env) (w : World) :
  existsSync_at (fs w) (MINIFLARE_DIR (argv e)) = true ->
  existsSync_at (fs w) (dbPath_of e bucketName) = true ->
  (forall t, sqlite e t (dbPath_of e bucketName) = Rows keys) ->
  listLocalObjects bucketName e w
  = (Ret keys,
     {| fs := fs w;
        console := console w
          ++ [(LInfo, "Reading from SQLite database: " +:+ dbPath_of e bucketName)];
        trace := trace w ++ [EvListLocal bucketName; EvOpenDatabase (dbPath_of e bucketName)];
        s3_pages := s3_pages w |}).
Proof.
  intros Hdir Hdb Hrows.
  unfold listLocalObjects, listLocalObjectsFromDatabase.
  unfold bind, try_catch, emit, ask, existsSync, logWarning, logInfo, logError, log,
    now, throw, ret.
  unfold dbPath_of in *. cbn [fs trace console s3_pages]. cbv zeta.
  rewrite Hdir. cbn [negb fs trace console s3_pages]. rewrite Hdb.
  cbn [negb fs trace console s3_pages]. rewrite Hrows.
  rewrite fold_left_push, <- app_assoc. reflexivity.
Qed.

Lemma objectsToSync_all_local (remote : list _Object) (keys : list string) :
  (forall o k, o ∈ remote -> Key o = Some k -> k <> EmptyString -> k ∈ keys) ->
  objectsToSync false false remote keys = [].
Proof.
  intros Hall. rewrite objectsToSync_normal_filter.
  apply elem_of_nil_inv. intros o [Hmiss Ho]%list_elem_of_filter.
  unfold missing_locally in Hmiss. destruct (Key o) as [k |] eqn:Hk; [| done].
  destruct Hmiss as [Hne Hnot]. by apply Hnot, (Hall o k).
Qed.

Lemma quiet_not_transfer (evs : list event) : Forall quiet_event evs -> transfers evs = [].
Proof.
  induction 1 as [| ev evs Hev _ IH]; [reflexivity |].
  unfold transfers in *. cbn. rewrite IH. by destruct ev.
Qed.

(** X22. A run with nothing to do moves nothing: in normal mode, with the
    credentials set, the state directory and the bucket's database in place
    and the database listing the key of every keyed object of the remote
    listing, [syncR2ToLocal] returns without a download and without a child
    process. *)
Theorem syncR2ToLocal_in_sync (e : Env) (w : World)
    (full : list ListObjectsV2CommandOutput) (last : ListObjectsV2CommandOutput)
    (rest : list (exn + ListObjectsV2CommandOutput)) (keys : list string) :
  let bucket := interpolate (BUCKET_NAME (argv e)) in
  cleanSync (argv e) = false ->
  forceSync (argv e) = false ->
  credentials_missing e = false ->
  s3_pages w = map inr full ++ inr last :: rest ->
  Forall (fun r => truthy (NextContinuationToken r) = true) full ->
  truthy (NextContinuationToken last) = false ->
  existsSync_at (fs w) (MINIFLARE_DIR (argv e)) = true ->
  existsSync_at (fs w) (dbPath_of e bucket) = true ->
  (forall t, sqlite e t (dbPath_of e bucket) = Rows keys) ->
  (forall o k, o ∈ flat_map contents_of (full ++ [last]) ->
     Key o = Some k -> k <> EmptyString -> k ∈ keys) ->
  exists w',
    syncR2ToLocal e w = (Ret tt, w')
    /\ transfers (trace w') = transfers (trace w).
Proof.
  intros bucket Hclean Hforce Hcreds Hpages Hfull Hlast Hdir Hdb Hrows Hall.
  unfold syncR2ToLocal. unfold bind at 1. cbn [log]. unfold try_finally.
  match goal with |- context [syncR2ToLocal_try e ?w0] => set (w0' := w0) end.
  assert (Htry : exists w1 evs,
    syncR2ToLocal_try e w0' = (Ret tt, w1)
    /\ trace w1 = trace w ++ evs /\ transfers evs = []).
  { unfold syncR2ToLocal_try, try_catch. unfold bind at 1. unfold ask at 1.
    unfold bind at 1. cbn [logStep log]. fold bucket.
    match goal with
    | |- context [bind createRemoteClient
                    (fun c => bind (ensureDirectoryExists TEMP_DIR)
                                (fun _ => bind _ (fun _ => @?k c))) e ?w1] =>
        destruct (syncR2ToLocal_prepares k e w1 Hcreds)
          as (client & w3 & evs & Hrun & Hp3 & Ht3 & Hq3 & Hf3)
    end.
    rewrite Hrun. clear Hrun. cbn beta. specialize (Hf3 Hclean). cbn [fs] in Hf3.
    unfold bind at 1. cbn [logStep log]. unfold bind at 1.
    erewrite listRemoteObjects_pages;
      [| cbn [s3_pages]; rewrite Hp3; exact Hpages | exact Hfull | exact Hlast].
    apply Forall_quiet_prepare, quiet_not_transfer in Hq3.
    assert (Hreq : transfers (list_requests bucket full) = [])
      by apply quiet_not_transfer, quiet_list_requests.
    destruct (flat_map contents_of (full ++ [last])) as [| o1 remote] eqn:Hremote.
    - cbn [length Nat.eqb logWarning log].
      eexists _, (evs ++ list_requests bucket full). split; [reflexivity |].
      cbn [trace]. split; [by rewrite Ht3, <- app_assoc |].
      by rewrite transfers_app, Hq3, Hreq.
    - cbn [length Nat.eqb]. unfold bind at 1. cbn [logSuccess log].
      rewrite Hclean, Hforce. cbn [negb andb].
      unfold bind at 1. unfold bind at 1. cbn [logStep log]. unfold bind at 1.
      erewrite (listLocalObjects_reads bucket keys);
        [| cbn [fs]; by eapply only_adds_dirs_exists
         | cbn [fs]; by eapply only_adds_dirs_exists
         | exact Hrows].
      unfold bind at 1. cbn [logSuccess log ret].
      rewrite (objectsToSync_all_local (o1 :: remote) keys Hall).
      cbn [length Nat.eqb logSuccess log].
      eexists _, (evs ++ list_requests bucket full
                  ++ [EvListLocal bucket; EvOpenDatabase (dbPath_of e bucket)]).
      split; [reflexivity |]. cbn [trace fs console s3_pages].
      split; [by rewrite Ht3, <- !app_assoc |].
      by rewrite !transfers_app, Hq3, Hreq. }
  destruct Htry as (w1 & evs & Hrun & Ht1 & Hq1). rewrite Hrun.
  destruct (syncR2ToLocal_finally_trace e w1) as (w2 & Hfin & _ & Ht2).
  rewrite Hfin. exists w2. split; [reflexivity |].
  rewrite Ht2, Ht1, !transfers_app, Hq1.
  destruct (existsSync_at (fs w1) TEMP_DIR); cbn; by rewrite !app_nil_r.
Qed.

Lemma syncR2ToLocal_in_sync_witness :
  let e := Sample.env ["my-bucket"] EmptyString ["a"; "b"] in
  let remote := [Sample.object "a"; Sample.object "b"] in
  let w := Sample.world
             (<[resolve (dbPath_of e "my-bucket") := File []]> Sample.two_trees) remote in
  exists w',
    syncR2ToLocal e w = (Ret tt, w')
    /\ transfers (trace w') = transfers (trace w).
Proof.
  intros e remote w.
  apply (syncR2ToLocal_in_sync e w []
           {| Contents := Some remote; NextContinuationToken := None |} [] ["a"; "b"]).
  - reflexivity.
  - reflexivity.
  - vm_compute. reflexivity.
  - reflexivity.
  - constructor.
  - reflexivity.
  - vm_compute. reflexivity.
  - vm_compute. reflexivity.
  - intros t. reflexivity.
  - intros o k Ho Hk _. cbn in Ho.
    apply elem_of_cons in Ho as [-> | Ho]; [injection Hk as <-; left |].
    apply elem_of_cons in Ho as [-> | Ho]; [injection Hk as <-; right; left |].
    by apply elem_of_nil in Ho.
Defined.

Lemma objectsToSync_local_irrelevant (force clean : bool) (remote : list _Object)
    (local1 local2 : list string) :
  force || clean = true ->
  objectsToSync force clean remote local1 = objectsToSync force clean remote local2.
Proof. intros Hmode. unfold objectsToSync. by rewrite Hmode. Qed.

Lemma syncR2ToLocal_tail_transfers (client : S3Client) (bucket : string)
    (plan : list _Object) (e : Env) (w : World) (o : outcome unit) (w1 : World) :
  match
    (if Nat.eqb (length plan) 0 then logSuccess "All objects are already in sync!"
     else
       logInfo ("Need to sync " +:+ pretty (length plan) +:+ " objects");;
       syncObjects client bucket plan;;
       logSuccess ("Successfully synced " +:+ pretty (length plan)
                   +:+ " objects to local Wrangler!")) e w
  with
  | (Throw x, w') => (logError ("Sync failed: " +:+ errorMessage x);; throw x) e w'
  | r => r
  end = (o, w1) ->
  o = Ret tt ->
  transfers (trace w1)
  = transfers (trace w) ++ flat_map (transfer_of bucket) (transferred_keys plan).
Proof.
  destruct plan as [| o1 plan'] eqn:Hplan.
  - cbn. intros [= <- <-] _. cbn. by rewrite app_nil_r.
  - rewrite <- Hplan. replace (Nat.eqb (length plan) 0) with false by by rewrite Hplan.
    unfold bind at 1. cbn [logInfo log]. unfold bind at 1.
    match goal with |- context [syncObjects client bucket plan e ?w0] =>
      destruct (syncObjects client bucket plan e w0) as [[[] | x | c] w2] eqn:Hs end.
    + cbn [logSuccess log]. intros [= <- <-] _. cbn [trace].
      apply syncObjects_loop_transfers in Hs. exact Hs.
    + unfold bind. cbn [logError log throw]. intros [= <- <-]. discriminate.
    + intros [= <- <-]. discriminate.
Qed.

(** X23. A run that returns has moved exactly the plan: with the credentials
    set and the remote listing answered, and in normal mode the state
    directory and the bucket's database in place with the database giving
    [keys], the downloads and child processes of a returning run are, object
    by object and in listing order, the download and the upload of every
    object the reconciler selects for the mode, and nothing else. *)
Theorem syncR2ToLocal_transfers_plan (e : Env) (w w' : World)
    (full : list ListObjectsV2CommandOutput) (last : ListObjectsV2CommandOutput)
    (rest : list (exn + ListObjectsV2CommandOutput)) (keys : list string) :
  let bucket := interpolate (BUCKET_NAME (argv e)) in
  let remote := flat_map contents_of (full ++ [last]) in
  credentials_missing e = false ->
  s3_pages w = map inr full ++ inr last :: rest ->
  Forall (fun r => truthy (NextContinuationToken r) = true) full ->
  truthy (NextContinuationToken last) = false ->
  (cleanSync (argv e) = false -> forceSync (argv e) = false ->
   existsSync_at (fs w) (MINIFLARE_DIR (argv e)) = true
   /\ existsSync_at (fs w) (dbPath_of e bucket) = true
   /\ forall t, sqlite e t (dbPath_of e bucket) = Rows keys) ->
  syncR2ToLocal e w = (Ret tt, w') ->
  transfers (trace w')
  = transfers (trace w)
    ++ flat_map (transfer_of bucket)
         (transferred_keys
            (objectsToSync (forceSync (argv e)) (cleanSync (argv e)) remote keys)).
Proof.
  intros bucket remote Hcreds Hpages Hfull Hlast Hlocal Hret.
  pose proof (eq_refl : remote = flat_map contents_of (full ++ [last])) as Hremote.
  clearbody remote.
  set (plan := objectsToSync _ _ remote keys).
  unfold syncR2ToLocal in Hret. unfold bind at 1 in Hret. cbn [log] in Hret.
  unfold try_finally in Hret.
  match type of Hret with context [syncR2ToLocal_try e ?w0] => set (w0' := w0) in * end.
  assert (Htry : forall o w1,
    syncR2ToLocal_try e w0' = (o, w1) -> o = Ret tt ->
    transfers (trace w1)
    = transfers (trace w) ++ flat_map (transfer_of bucket) (transferred_keys plan)).
  { unfold syncR2ToLocal_try, try_catch. unfold bind at 1. unfold ask at 1.
    unfold bind at 1. cbn [logStep log]. fold bucket.
    match goal with
    | |- context [bind createRemoteClient
                    (fun c => bind (ensureDirectoryExists TEMP_DIR)
                                (fun _ => bind _ (fun _ => @?k c))) e ?w1] =>
        destruct (syncR2ToLocal_prepares k e w1 Hcreds)
          as (client & w3 & evs & Hrun & Hp3 & Ht3 & Hq3 & Hf3)
    end.
    rewrite Hrun. clear Hrun. cbn beta. cbn [fs trace] in Hf3, Ht3.
    unfold bind at 1. cbn [logStep log]. unfold bind at 1.
    erewrite listRemoteObjects_pages;
      [| cbn [s3_pages]; rewrite Hp3; exact Hpages | exact Hfull | exact Hlast].
    rewrite <- Hremote.
    apply Forall_quiet_prepare, quiet_not_transfer in Hq3.
    assert (Hreq : transfers (list_requests bucket full) = [])
      by apply quiet_not_transfer, quiet_list_requests.
    destruct (Nat.eqb (length remote) 0) eqn:Hlen.
    - apply Nat.eqb_eq, nil_length_inv in Hlen.
      cbn [logWarning log]. intros o w1 [= <- <-] _. cbn [trace].
      rewrite Ht3, !transfers_app, Hq3, Hreq. unfold plan. rewrite Hlen.
      cbn. by rewrite !app_nil_r.
    - unfold bind at 1. cbn [logSuccess log]. unfold bind at 1.
      destruct (negb (cleanSync (argv e)) && negb (forceSync (argv e))) eqn:Hmode.
      + apply andb_true_iff in Hmode as [Hclean%negb_true_iff Hforce%negb_true_iff].
        destruct (Hlocal Hclean Hforce) as (Hdir & Hdb & Hrows).
        unfold bind at 1. cbn [logStep log]. unfold bind at 1.
        erewrite (listLocalObjects_reads bucket keys);
          [| cbn [fs]; eapply only_adds_dirs_exists; [exact (Hf3 Hclean) | exact Hdir]
           | cbn [fs]; eapply only_adds_dirs_exists; [exact (Hf3 Hclean) | exact Hdb]
           | exact Hrows].
        unfold bind at 1. cbn [logSuccess log ret]. fold plan.
        intros o w1 Hrun Ho.
        rewrite (syncR2ToLocal_tail_transfers client bucket plan e _ o w1 Hrun Ho).
        cbn [trace]. rewrite Ht3, !transfers_app, Hq3, Hreq. cbn. by rewrite !app_nil_r.
      + cbn [ret].
        assert (Hor : forceSync (argv e) || cleanSync (argv e) = true)
          by (destruct (cleanSync (argv e)), (forceSync (argv e)); done).
        rewrite (objectsToSync_local_irrelevant _ _ remote [] keys Hor). fold plan.
        intros o w1 Hrun Ho.
        rewrite (syncR2ToLocal_tail_transfers client bucket plan e _ o w1 Hrun Ho).
        cbn [trace]. rewrite Ht3, !transfers_app, Hq3, Hreq. by rewrite !app_nil_r. }
  destruct (syncR2ToLocal_try e w0') as [o w1] eqn:Hrun.
  specialize (Htry o w1 eq_refl).
  destruct (syncR2ToLocal_finally_trace e w1) as (w2 & Hfin & _ & Ht2).
  destruct o as [[] | x | c]; rewrite ?Hfin in Hret; [| discriminate Hret ..].
  injection Hret as <-. rewrite Ht2, transfers_app, (Htry eq_refl).
  destruct (existsSync_at (fs w1) TEMP_DIR); cbn; by rewrite !app_nil_r.
Qed.

Lemma syncR2ToLocal_transfers_plan_witness :
  let e := Sample.env ["my-bucket"] EmptyString ["a"] in
  let page1 := {| Contents := Some [Sample.object "a"; Sample.object "b"];
                  NextContinuationToken := Some "t1" |} in
  let page2 := {| Contents := Some [{| Key := None; Size := Some 3%Z; ETag := None |};
                                    Sample.object "photos/c.png"];
                  NextContinuationToken := None |} in
  let w := {| fs := <[resolve (dbPath_of e "my-bucket") := File []]> Sample.two_trees;
              console := []; trace := []; s3_pages := [inr page1; inr page2] |} in
  let w' := (syncR2ToLocal e w).2 in
  transfers (trace w')
  = transfer_of "my-bucket" "b" ++ transfer_of "my-bucket" "photos/c.png".
Proof.
  intros e page1 page2 w w'.
  apply (syncR2ToLocal_transfers_plan e w w' [page1] page2 [] ["a"]).
  - vm_compute. reflexivity.
  - reflexivity.
  - repeat constructor.
  - reflexivity.
  - intros _ _. split; [vm_compute; reflexivity |].
    split; [vm_compute; reflexivity |]. intros t. reflexivity.
  - vm_compute. reflexivity.
Defined.

(** ** The upload and the help flag *)


Lemma includes_middle (pre post : list string) (x : string) :
  includes (pre ++ x :: post) x = true.
Proof.
  unfold includes. rewrite existsb_app. cbn. rewrite String.eqb_refl.
  by rewrite orb_true_r.
Qed.

(** X25. A help flag anywhere wins: with [--help] or [-h] at any position of
    the command line, [main] prints the usage and returns, whatever the
    other arguments and the environment are; it reads no variable, starts no
    process and touches no file. *)
Theorem main_help_anywhere (e : Env) (w : World) (pre post : list string) (flag : string) :
  flag = "--help" \/ flag = "-h" ->
  argv e = pre ++ flag :: post ->
  main e w = (Ret tt, with_console w [(LRaw, usage)]).
Proof.
  intros Hflag Hargs. apply main_help. unfold help_requested. rewrite Hargs.
  destruct Hflag as [-> | ->]; rewrite includes_middle; [reflexivity | apply orb_true_r].
Qed.

Lemma main_help_anywhere_witness :
  let e := {| argv := ["my-bucket"; "--clean"; "-h"];
              process_env := ∅;
              s3_get := fun _ _ _ => GetNoBody;
              spawn := fun _ _ _ => (127%Z, EmptyString, EmptyString);
              sqlite := fun _ _ => OpenFails JsOther |} in
  let w := Sample.world Sample.two_trees [Sample.object "a"] in
  main e w = (Ret tt, with_console w [(LRaw, usage)]).
Proof.
  intros e w.
  apply (main_help_anywhere e w ["my-bucket"; "--clean"] [] "-h").
  - right. reflexivity.
  - reflexivity.
Defined.
